(** * go-tiled/render: the tile-image resolution and compositing engine

    A shallow embedding of the [render] package (renderer, orthogonal
    engine, object rendering and the tileset cache) together with the
    properties of its specification.

    Conventions of the embedding:
    - Go's [int] is a 64-bit two's-complement integer and [uint32] a 32-bit
      unsigned one; both are carried by [Z] with the wrap-around written out.
    - [float64] (and the [float32] opacity) is an abstract number type with
      the operations the code uses.  No arithmetic law is built in; a
      property that needs exact arithmetic says so in its statement.
    - Errors are values; a Go run-time panic is the outcome [Panic].
    - Methods with a pointer receiver are state transformers over the
      receiver paired with the trace of file and decoder events. *)

From Stdlib Require Import ZArith Bool String Permutation Sorted Ring_theory Ring.
From stdpp Require Import gmap strings list fin_maps.

Open Scope Z_scope.

(** ** Machine integers *)

Module GoInt.

(** Two's-complement wrap-around to [w] bits. *)
Definition wrap (w z : Z) : Z := (z + 2 ^ (w - 1)) mod 2 ^ w - 2 ^ (w - 1).

(** Go [int] on a 64-bit platform. *)
Definition int (z : Z) : Z := wrap 64 z.
Definition int_add (a b : Z) : Z := int (a + b).
Definition int_mul (a b : Z) : Z := int (a * b).

(** Go [uint32]. *)
Definition uint32 (z : Z) : Z := z mod 2 ^ 32.
Definition u32_add (a b : Z) : Z := uint32 (a + b).

Definition in_int (z : Z) : Prop := - 2 ^ 63 <= z < 2 ^ 63.
Definition in_uint32 (z : Z) : Prop := 0 <= z < 2 ^ 32.

End GoInt.
Import GoInt.

(** ** Numbers: [float64] *)

Class Float64 := {
  float64 : Type;
  of_int : Z -> float64;                       (* float64(n) *)
  to_int : float64 -> Z;                       (* int(f) *)
  fadd : float64 -> float64 -> float64;
  fsub : float64 -> float64 -> float64;
  fmul : float64 -> float64 -> float64;
  fdiv : float64 -> float64 -> float64;
  feqb : float64 -> float64 -> bool;           (* == *)
  fltb : float64 -> float64 -> bool;           (* < *)
  Sincos : float64 -> float64 * float64;       (* math.Sincos *)
  Pi : float64                                 (* math.Pi *)
}.

Declare Scope float_scope.
Delimit Scope float_scope with F.
Infix "+" := fadd : float_scope.
Infix "-" := fsub : float_scope.
Infix "*" := fmul : float_scope.
Infix "/" := fdiv : float_scope.

(** ** Geometry and images: the drawing library *)

Record Point := { Pt_X : Z; Pt_Y : Z }.
Record Rectangle := { Rect_Min : Point; Rect_Max : Point }.

(** image.Pt *)
Definition Pt (x y : Z) : Point := {| Pt_X := x; Pt_Y := y |}.

(** Point.Eq *)
Definition Point_Eq (p q : Point) : bool :=
  (Pt_X p =? Pt_X q) && (Pt_Y p =? Pt_Y q).

(** Rectangle.Size *)
Definition Rect_Size (r : Rectangle) : Point :=
  Pt (int (Pt_X (Rect_Max r) - Pt_X (Rect_Min r)))
     (int (Pt_Y (Rect_Max r) - Pt_Y (Rect_Min r))).

(** The operations on [image.Image] values that the package calls
    (ebiten's [NewImageFromImage] and [SubImage], imaging's [FlipH], [FlipV]
    and [Rotate270]). *)
Class Imaging := {
  Image : Type;
  Bounds : Image -> Rectangle;
  NewImageFromImage : Image -> Image;
  SubImage : Image -> Rectangle -> Image;
  FlipH : Image -> Image;
  FlipV : Image -> Image;
  Rotate270 : Image -> Image
}.

Section Geometry.
Context {FL : Float64}.

(** ebiten.GeoM, as the drawing library implements it: the affine matrix
    [[a b tx] [c d ty]], stored with [a-1] and [d-1] so that the zero value
    is the identity. *)
Record GeoM := {
  a_1 : float64; g_b : float64; g_c : float64;
  d_1 : float64; g_tx : float64; g_ty : float64
}.

(** [ebiten.GeoM{}] *)
Definition GeoM_zero : GeoM :=
  {| a_1 := of_int 0; g_b := of_int 0; g_c := of_int 0;
     d_1 := of_int 0; g_tx := of_int 0; g_ty := of_int 0 |}.

(** GeoM.Translate *)
Definition GeoM_Translate (g : GeoM) (tx ty : float64) : GeoM :=
  {| a_1 := a_1 g; g_b := g_b g; g_c := g_c g; d_1 := d_1 g;
     g_tx := (g_tx g + tx)%F; g_ty := (g_ty g + ty)%F |}.

(** GeoM.Scale *)
Definition GeoM_Scale (g : GeoM) (x y : float64) : GeoM :=
  let a := ((a_1 g + of_int 1) * x)%F in
  let b := (g_b g * x)%F in
  let tx := (g_tx g * x)%F in
  let c := (g_c g * y)%F in
  let d := ((d_1 g + of_int 1) * y)%F in
  let ty := (g_ty g * y)%F in
  {| a_1 := (a - of_int 1)%F; g_b := b; g_c := c;
     d_1 := (d - of_int 1)%F; g_tx := tx; g_ty := ty |}.

(** GeoM.Rotate *)
Definition GeoM_Rotate (g : GeoM) (theta : float64) : GeoM :=
  if feqb theta (of_int 0) then g else
  let '(sin, cos) := Sincos theta in
  let a := (cos * (a_1 g + of_int 1) - sin * g_c g)%F in
  let b := (cos * g_b g - sin * (d_1 g + of_int 1))%F in
  let tx := (cos * g_tx g - sin * g_ty g)%F in
  let c := (sin * (a_1 g + of_int 1) + cos * g_c g)%F in
  let d := (sin * g_b g + cos * (d_1 g + of_int 1))%F in
  let ty := (sin * g_tx g + cos * g_ty g)%F in
  {| a_1 := (a - of_int 1)%F; g_b := b; g_c := c;
     d_1 := (d - of_int 1)%F; g_tx := tx; g_ty := ty |}.

(** GeoM.Apply: where the matrix sends the point [(x, y)]. *)
Definition GeoM_Apply (g : GeoM) (x y : float64) : float64 * float64 :=
  (((a_1 g + of_int 1) * x + g_b g * y + g_tx g)%F,
   (g_c g * x + (d_1 g + of_int 1) * y + g_ty g)%F).

(** The two elementary maps on points, for stating what a matrix does. *)
Definition translate_point (tx ty : float64) (p : float64 * float64) :=
  ((fst p + tx)%F, (snd p + ty)%F).
Definition scale_point (sx sy : float64) (p : float64 * float64) :=
  ((fst p * sx)%F, (snd p * sy)%F).

End Geometry.

(** ** Data model (package [tiled], as far as the renderer reads it) *)

Section Model.
Context {FL : Float64} {IM : Imaging}.

Record ImageRef := { Source : string }.

Record Tileset := {
  Tileset_Name : string;
  FirstGID : Z;                         (* uint32 *)
  TileCount : Z;                        (* int *)
  Tileset_Image : option ImageRef       (* *Image, nil for per-tile images *)
}.

Record TilesetTile := { TilesetTile_Image : option ImageRef }.

Record LayerTile := {
  ID : Z;                               (* uint32 *)
  LT_Tileset : Tileset;
  HorizontalFlip : bool;
  VerticalFlip : bool;
  DiagonalFlip : bool;
  Nil : bool
}.

(** LayerTile.IsNil *)
Definition IsNil (t : LayerTile) : bool := Nil t.

Record Object := {
  GID : Z;                              (* uint32 *)
  X : float64; Y : float64;
  Width : float64; Height : float64;
  Rotation : float64;
  Object_Visible : bool
}.

Record Layer := {
  Layer_Visible : bool;
  Layer_Opacity : float64;
  Tiles : list LayerTile
}.

Record ObjectGroup := {
  ObjectGroup_Visible : bool;
  ObjectGroup_Opacity : float64;
  Objects : list Object
}.

Record Group := {
  Group_Visible : bool;
  Group_Layers : list Layer;
  Group_ObjectGroups : list ObjectGroup
}.

Record Map := {
  Orientation : string;
  RenderOrder : string;
  Map_Width : Z; Map_Height : Z;        (* int *)
  TileWidth : Z; TileHeight : Z;        (* int *)
  Layers : list Layer;
  ObjectGroups : list ObjectGroup;
  Groups : list Group
}.

(** ** The rendering engine interface and its orthogonal implementation *)

(** RendererEngine, after [Init]: the engine holds its map. *)
Record RendererEngine := {
  GetFinalImageSize : Z * Z;
  RotateTileImage : LayerTile -> Image -> Image;
  GetTilePosition : Z -> Z -> GeoM
}.

(** OrthogonalRendererEngine.GetFinalImageSize *)
Definition Orthogonal_GetFinalImageSize (m : Map) : Z * Z :=
  (int_mul (Map_Width m) (TileWidth m), int_mul (Map_Height m) (TileHeight m)).

(** OrthogonalRendererEngine.RotateTileImage *)
Definition Orthogonal_RotateTileImage (tile : LayerTile) (img : Image) : Image :=
  let timg := img in
  let timg := if DiagonalFlip tile then FlipH (Rotate270 timg) else timg in
  let timg := if HorizontalFlip tile then FlipH timg else timg in
  let timg := if VerticalFlip tile then FlipV timg else timg in
  timg.

(** OrthogonalRendererEngine.GetTilePosition *)
Definition Orthogonal_GetTilePosition (m : Map) (x y : Z) : GeoM :=
  let res := GeoM_zero in
  let res := GeoM_Translate res
               (of_int (int_mul x (TileWidth m)))
               (of_int (int_mul y (TileHeight m))) in
  let res := GeoM_Scale res
               (of_int (int_mul (int_add x 1) (TileWidth m)))
               (of_int (int_mul (int_add y 1) (TileHeight m))) in
  res.

(** [&OrthogonalRendererEngine{}] followed by [Init(m)]. *)
Definition OrthogonalRendererEngine (m : Map) : RendererEngine :=
  {| GetFinalImageSize := Orthogonal_GetFinalImageSize m;
     RotateTileImage := Orthogonal_RotateTileImage;
     GetTilePosition := Orthogonal_GetTilePosition m |}.

(** ** Errors, outcomes and the state monad of the methods *)

Inductive error :=
| ErrUnsupportedOrientation
| ErrUnsupportedRenderOrder
| ErrOutOfBounds
| ErrTileImageNotFound (id : Z)     (* "Tile image not found in tileset: %d" *)
| ErrExternal (msg : string).       (* an error value of a collaborator *)

Inductive result (A : Type) :=
| Ok (a : A)
| Err (e : error)
| Panic.
Global Arguments Ok {A} a.
Global Arguments Err {A} e.
Global Arguments Panic {A}.

Definition M (S A : Type) : Type := S -> result A * S.

Definition ret {S A} (a : A) : M S A := fun s => (Ok a, s).
Definition fail {S A} (e : error) : M S A := fun s => (Err e, s).
Definition panic {S A} : M S A := fun s => (Panic, s).
Definition bind {S A B} (c : M S A) (k : A -> M S B) : M S B :=
  fun s =>
    match c s with
    | (Ok a, s') => k a s'
    | (Err e, s') => (Err e, s')
    | (Panic, s') => (Panic, s')
    end.
Definition lift {S A} (r : result A) : M S A := fun s => (r, s).
Definition modify {S} (f : S -> S) : M S unit := fun s => (Ok tt, f s).

(** [for _, x := range l { if err := f(x); err != nil { return err } }] *)
Fixpoint for_each {S A} (f : A -> M S unit) (l : list A) : M S unit :=
  match l with
  | [] => ret tt
  | x :: l' => bind (f x) (fun _ => for_each f l')
  end.

(** A loop that carries a local variable of type [B]. *)
Fixpoint fold_each {S A B} (f : B -> A -> M S B) (l : list A) (b : B) : M S B :=
  match l with
  | [] => ret b
  | x :: l' => bind (f b x) (fun b' => fold_each f l' b')
  end.

(** [l[i]] on a slice: out of range is a run-time panic. *)
Definition index {S A} (l : list A) (i : Z) : M S A :=
  if i <? 0 then panic
  else match l !! Z.to_nat i with
       | Some a => ret a
       | None => panic
       end.

(** [len(l)] *)
Definition len {A} (l : list A) : Z := Z.of_nat (length l).

End Model.

(** The methods are written with stdpp's monad notation [x ← c; k]. *)
#[global] Instance M_bind {S} : MBind (M S) := fun A B k c => bind c k.
#[global] Instance M_ret {S} : MRet (M S) := fun A a => ret a.

(** ** Collaborators *)

(** Events on the file system and the decoder, in the order they happen. *)
Inductive io_event :=
| EvOpen (path : string)
| EvDecode (path : string)
| EvClose (path : string).

(** Files and the image decoder ([os.Open], [path/filepath], [image.Decode]).
    An [fs.FS] is its [Open] method. *)
Class Files {IM : Imaging} := {
  File : Type;
  os_Open : string -> result File;
  FromSlash : string -> string;
  ToSlash : string -> string;
  image_Decode : File -> result Image
}.

Definition FS {IM : Imaging} {FI : Files} : Type := string -> result File.

(** The methods of package [tiled] that the renderer calls.  Their code is
    not part of the rendering package; they are taken as given functions of
    the map model. *)
Class Tiled {FL : Float64} := {
  TileGIDToTile : Map -> Z -> result LayerTile;
  GetTilesetTile : Tileset -> Z -> result TilesetTile;
  GetFileFullPath : Tileset -> string -> string;
  GetTileRect : Tileset -> Z -> Rectangle
}.

(** ** The renderer *)

Section Renderer.
Context {FL : Float64} {IM : Imaging} {FI : Files} {TI : Tiled}.

(** One call of [Image.DrawImage] on the canvas: the source image and the
    options ([GeoM] and the alpha of the [ColorScale]). *)
Record DrawCall := {
  dc_img : Image;
  dc_GeoM : GeoM;
  dc_alpha : float64
}.

(** The destination canvas: its size and the draw calls made on it since
    it was allocated (compositing itself belongs to the drawing library). *)
Record Canvas := {
  Canvas_Width : Z;
  Canvas_Height : Z;
  draws : list DrawCall
}.

(** ebiten.NewImage.  The canvas is described by its size; the size checks
    of the drawing library are not part of this model. *)
Definition NewImage (width height : Z) : Canvas :=
  {| Canvas_Width := width; Canvas_Height := height; draws := [] |}.

(** Image.DrawImage *)
Definition DrawImage (dst : Canvas) (img : Image) (geom : GeoM) (alpha : float64) : Canvas :=
  {| Canvas_Width := Canvas_Width dst; Canvas_Height := Canvas_Height dst;
     draws := draws dst ++ [{| dc_img := img; dc_GeoM := geom; dc_alpha := alpha |}] |}.

Record Renderer := {
  r_m : Map;                       (* m *)
  Result : option Canvas;          (* *ebiten.Image, nil before Clear *)
  tileCache : gmap Z Image;        (* map[uint32]image.Image *)
  engine : RendererEngine;
  r_fs : option FS                 (* fs, nil for the host file system *)
}.

(** The state a method runs in: the receiver and the event trace. *)
Definition RState : Type := Renderer * list io_event.

Definition set_Result (c : option Canvas) (r : Renderer) : Renderer :=
  {| r_m := r_m r; Result := c; tileCache := tileCache r;
     engine := engine r; r_fs := r_fs r |}.

Definition set_tileCache (tc : gmap Z Image) (r : Renderer) : Renderer :=
  {| r_m := r_m r; Result := Result r; tileCache := tc;
     engine := engine r; r_fs := r_fs r |}.

Definition emit {R} (e : io_event) : M (R * list io_event) unit :=
  modify (fun s => (fst s, snd s ++ [e])).

Definition receiver {R} : M (R * list io_event) R :=
  fun s => (Ok (fst s), s).

Definition update {R} (f : R -> R) : M (R * list io_event) unit :=
  modify (fun s => (f (fst s), snd s)).

(** [defer sf.Close()]: the file is closed when the body returns, whatever
    it returns. *)
Definition defer_Close {R A} (path : string)
    (body : M (R * list io_event) A) : M (R * list io_event) A :=
  fun s => let '(res, (r, tr)) := body s in (res, (r, tr ++ [EvClose path])).

(** The common body of [Renderer.open] and [TilesetCache.open]. *)
Definition open_with {R} (fsys : option FS) (f : string) : M (R * list io_event) (string * File) :=
  match fsys with
  | None =>
      let p := FromSlash f in
      _ ← emit (EvOpen p); sf ← lift (os_Open p); mret (p, sf)
  | Some fsys =>
      let p := ToSlash f in
      _ ← emit (EvOpen p); sf ← lift (fsys p); mret (p, sf)
  end.

(** image.Decode *)
Definition Decode {R} (sf : string * File) : M (R * list io_event) Image :=
  _ ← emit (EvDecode (fst sf)); lift (image_Decode (snd sf)).

(** Renderer.open *)
Definition open (f : string) : M RState (string * File) :=
  r ← receiver; open_with (r_fs r) f.

(** Renderer.Clear *)
Definition Clear_pure (r : Renderer) : Renderer :=
  let '(width, height) := GetFinalImageSize (engine r) in
  set_Result (Some (NewImage width height)) r.

Definition Clear : M RState unit := update Clear_pure.

(** NewRendererWithFileSystem.  The constructor has no receiver; it runs
    on the event trace alone. *)
Definition NewRendererWithFileSystem (m : Map) (fsys : option FS)
  : M (list io_event) Renderer :=
  if String.eqb (Orientation m) "orthogonal" then
    let r := {| r_m := m; Result := None; tileCache := ∅;
                engine := OrthogonalRendererEngine m; r_fs := fsys |} in
    mret (Clear_pure r)
  else
    fail ErrUnsupportedOrientation.

(** NewRenderer *)
Definition NewRenderer (m : Map) : M (list io_event) Renderer :=
  NewRendererWithFileSystem m None.

(** [r.Result.DrawImage(img, &ebiten.DrawImageOptions{GeoM, ColorScale})]
    where the color scale is the zero value with its alpha set. *)
Definition Result_DrawImage (img : Image) (geom : GeoM) (alpha : float64) : M RState unit :=
  r ← receiver;
  match Result r with
  | None => panic
  | Some dst => update (set_Result (Some (DrawImage dst img geom alpha)))
  end.

(** Renderer.getTileImageFromTile *)
Definition getTileImageFromTile (tile : LayerTile) : M RState Image :=
  tilesetTile ← lift (GetTilesetTile (LT_Tileset tile) (ID tile));
  match TilesetTile_Image tilesetTile with
  | None => panic
  | Some image =>
      sf ← open (GetFileFullPath (LT_Tileset tile) (Source image));
      defer_Close (fst sf) (
        img ← Decode sf;
        let timg := NewImageFromImage img in
        _ ← update (fun r =>
               set_tileCache
                 (<[u32_add (FirstGID (LT_Tileset tile)) (ID tile) := timg]> (tileCache r)) r);
        r ← receiver;
        mret (RotateTileImage (engine r) tile timg))
  end.

(** One iteration of the precaching loop of [getTileImageFromTileset]:
    the loop variables are the cache and [timg]. *)
Definition precache_step (tile : LayerTile) (eimg : Image)
    (acc : gmap Z Image * option Image) (i : Z) : gmap Z Image * option Image :=
  let '(cache, timg) := acc in
  let rect := GetTileRect (LT_Tileset tile) i in
  let key := u32_add i (FirstGID (LT_Tileset tile)) in
  let cache := <[key := SubImage eimg rect]> cache in
  let timg := if ID tile =? i then NewImageFromImage <$> (cache !! key) else timg in
  (cache, timg).

(** [for i := uint32(0); i < uint32(tile.Tileset.TileCount); i++ { ... }] *)
Definition precache (tile : LayerTile) (eimg : Image) (cache : gmap Z Image)
  : gmap Z Image * option Image :=
  fold_left (precache_step tile eimg)
            (seqZ 0 (uint32 (TileCount (LT_Tileset tile)))) (cache, None).

(** Renderer.getTileImageFromTileset *)
Definition getTileImageFromTileset (tile : LayerTile) : M RState Image :=
  match Tileset_Image (LT_Tileset tile) with
  | None => panic
  | Some image =>
      sf ← open (GetFileFullPath (LT_Tileset tile) (Source image));
      defer_Close (fst sf) (
        img ← Decode sf;
        let eimg := NewImageFromImage img in
        r ← receiver;
        let '(cache, timg) := precache tile eimg (tileCache r) in
        _ ← update (set_tileCache cache);
        match timg with
        | Some timg => mret (RotateTileImage (engine r) tile timg)
        | None => fail (ErrTileImageNotFound (ID tile))
        end)
  end.

(** Renderer.getTileImage *)
Definition getTileImage (tile : LayerTile) : M RState Image :=
  r ← receiver;
  match tileCache r !! u32_add (FirstGID (LT_Tileset tile)) (ID tile) with
  | Some timg =>
      let res := NewImageFromImage timg in
      mret (RotateTileImage (engine r) tile res)
  | None =>
      match Tileset_Image (LT_Tileset tile) with
      | None => getTileImageFromTile tile
      | Some _ => getTileImageFromTileset tile
      end
  end.

(** The body of the inner loop of [_renderLayer] at cell [(x, y)]; the
    loop variable [i] is passed along. *)
Definition renderCell (layer : Layer) (y : Z) (i : Z) (x : Z) : M RState Z :=
  t ← index (Tiles layer) i;
  if IsNil t then mret (i + 1)
  else
    img ← getTileImage t;
    r ← receiver;
    let geom := GetTilePosition (engine r) x y in
    _ ← Result_DrawImage img geom (Layer_Opacity layer);
    mret (i + 1).

(** Renderer._renderLayer *)
Definition _renderLayer (layer : Layer) : M RState unit :=
  r ← receiver;
  if String.eqb (RenderOrder (r_m r)) "" || String.eqb (RenderOrder (r_m r)) "right-down" then
    let xe := Map_Width (r_m r) in
    let ye := Map_Height (r_m r) in
    _ ← fold_each (fun i y => fold_each (renderCell layer y) (seqZ 0 xe) i) (seqZ 0 ye) 0;
    mret tt
  else
    fail ErrUnsupportedRenderOrder.

(** Renderer.RenderLayer *)
Definition RenderLayer (id : Z) : M RState unit :=
  r ← receiver;
  if id >=? len (Layers (r_m r)) then fail ErrOutOfBounds
  else layer ← index (Layers (r_m r)) id; _renderLayer layer.

(** Renderer.RenderGroupLayer *)
Definition RenderGroupLayer (groupID layerID : Z) : M RState unit :=
  r ← receiver;
  if groupID >=? len (Groups (r_m r)) then fail ErrOutOfBounds
  else
    group ← index (Groups (r_m r)) groupID;
    if layerID >=? len (Group_Layers group) then fail ErrOutOfBounds
    else layer ← index (Group_Layers group) layerID; _renderLayer layer.

(** Renderer.RenderVisibleLayers *)
Definition RenderVisibleLayers : M RState unit :=
  r ← receiver;
  for_each (fun i =>
              layer ← index (Layers (r_m r)) i;
              if negb (Layer_Visible layer) then mret tt
              else RenderLayer i)
           (seqZ 0 (len (Layers (r_m r)))).

(** *** Object groups *)

(** The comparison passed to the sort in [_renderObjectGroup]. *)
Definition object_less (a b : Object) : bool :=
  if negb (feqb (Y a) (Y b)) then fltb (Y a) (Y b)
  else fltb (X a) (X b).

(** Modelled from the spec: [utils.SortAnySlice] (package internal/utils)
    is not part of the rendering package.  The specification says the
    objects are "stably sorted" by the comparison: the result is ordered
    by [less] and elements that [less] does not separate keep their
    original relative order.  This is the stable insertion sort. *)
Fixpoint sort_insert {A} (less : A -> A -> bool) (x : A) (l : list A) : list A :=
  match l with
  | [] => [x]
  | y :: l' => if less y x then y :: sort_insert less x l' else x :: y :: l'
  end.

Definition SortAnySlice {A} (l : list A) (less : A -> A -> bool) : list A :=
  foldr (sort_insert less) [] l.

(** The transform built in [renderOneObject] for an object whose tile
    image is [img]. *)
Definition object_GeoM (img : Image) (o : Object) : GeoM :=
  let geom := GeoM_zero in
  let srcSize := Rect_Size (Bounds img) in
  let dstSize := Pt (to_int (Width o)) (to_int (Height o)) in
  let geom :=
    if negb (Point_Eq srcSize dstSize) then
      GeoM_Scale geom
        (of_int (Pt_X dstSize) / of_int (Pt_X srcSize))%F
        (of_int (Pt_Y dstSize) / of_int (Pt_Y srcSize))%F
    else geom in
  let geom :=
    if negb (feqb (Rotation o) (of_int 0)) then
      GeoM_Rotate geom (Rotation o * Pi / of_int 180)%F
    else geom in
  geom.

(** Renderer.renderOneObject *)
Definition renderOneObject (layer : ObjectGroup) (o : Object) : M RState unit :=
  if negb (Object_Visible o) then mret tt
  else if GID o =? 0 then mret tt
  else
    r ← receiver;
    tile ← lift (TileGIDToTile (r_m r) (GID o));
    img ← getTileImage tile;
    let geom := object_GeoM img o in
    Result_DrawImage img geom (ObjectGroup_Opacity layer).

(** Renderer._renderObjectGroup *)
Definition _renderObjectGroup (objectGroup : ObjectGroup) : M RState unit :=
  let objs := Objects objectGroup in
  let objs := SortAnySlice objs object_less in
  for_each (renderOneObject objectGroup) objs.

(** Renderer.RenderObjectGroup *)
Definition RenderObjectGroup (i : Z) : M RState unit :=
  r ← receiver;
  if i >=? len (ObjectGroups (r_m r)) then fail ErrOutOfBounds
  else layer ← index (ObjectGroups (r_m r)) i; _renderObjectGroup layer.

(** Renderer.RenderGroupObjectGroup *)
Definition RenderGroupObjectGroup (groupID objectGroupID : Z) : M RState unit :=
  r ← receiver;
  if groupID >=? len (Groups (r_m r)) then fail ErrOutOfBounds
  else
    group ← index (Groups (r_m r)) groupID;
    if objectGroupID >=? len (Group_ObjectGroups group) then fail ErrOutOfBounds
    else layer ← index (Group_ObjectGroups group) objectGroupID;
         _renderObjectGroup layer.

(** Renderer.RenderVisibleObjectGroups *)
Definition RenderVisibleObjectGroups : M RState unit :=
  r ← receiver;
  for_each (fun i =>
              layer ← index (ObjectGroups (r_m r)) i;
              if negb (ObjectGroup_Visible layer) then mret tt
              else RenderObjectGroup i)
           (seqZ 0 (len (ObjectGroups (r_m r)))).

(** Renderer.RenderVisibleLayersAndObjectGroups *)
Definition RenderVisibleLayersAndObjectGroups : M RState unit :=
  _ ← RenderVisibleLayers; RenderVisibleObjectGroups.

(** *** Groups *)

(** Renderer._renderGroup *)
Definition _renderGroup (group : Group) : M RState unit :=
  _ ← for_each (fun layer =>
                  if negb (Layer_Visible layer) then mret tt
                  else _renderLayer layer)
               (Group_Layers group);
  for_each (fun objectGroup =>
              if negb (ObjectGroup_Visible objectGroup) then mret tt
              else _renderObjectGroup objectGroup)
           (Group_ObjectGroups group).

(** Renderer.RenderGroup *)
Definition RenderGroup (groupID : Z) : M RState unit :=
  r ← receiver;
  if groupID >=? len (Groups (r_m r)) then fail ErrOutOfBounds
  else group ← index (Groups (r_m r)) groupID; _renderGroup group.

(** Renderer.RenderVisibleGroups *)
Definition RenderVisibleGroups : M RState unit :=
  r ← receiver;
  for_each (fun group =>
              if negb (Group_Visible group) then mret tt
              else _renderGroup group)
           (Groups (r_m r)).

(** ** The tileset cache *)

Record TilesetCache := {
  t_cache : gmap string (gmap Z Image);   (* cache *)
  t_fs : option FS                        (* fs *)
}.

Definition TState : Type := TilesetCache * list io_event.

(** NewTilesetCache *)
Definition NewTilesetCache (fsys : option FS) : TilesetCache :=
  {| t_cache := ∅; t_fs := fsys |}.

Definition set_t_cache (c : gmap string (gmap Z Image)) (t : TilesetCache) : TilesetCache :=
  {| t_cache := c; t_fs := t_fs t |}.

(** TilesetCache.open *)
Definition TilesetCache_open (f : string) : M TState (string * File) :=
  t ← receiver; open_with (t_fs t) f.

(** The slicing loop of [cacheTileset]. *)
Definition slice_tileset (tileset : Tileset) (eimg : Image) : gmap Z Image :=
  fold_left (fun cache i => <[i := SubImage eimg (GetTileRect tileset i)]> cache)
            (seqZ 0 (uint32 (TileCount tileset))) ∅.

(** TilesetCache.cacheTileset *)
Definition cacheTileset (tileset : Tileset) : M TState unit :=
  match Tileset_Image tileset with
  | None => panic
  | Some image =>
      sf ← TilesetCache_open (GetFileFullPath tileset (Source image));
      defer_Close (fst sf) (
        img ← Decode sf;
        let eimg := NewImageFromImage img in
        let cache := slice_tileset tileset eimg in
        update (fun t => set_t_cache (<[Tileset_Name tileset := cache]> (t_cache t)) t))
  end.

(** TilesetCache.GetTileImage.  A missing key of a Go map reads as the nil
    image: the result is an [option]. *)
Definition GetTileImage (tile : LayerTile) : M TState (option Image) :=
  t ← receiver;
  match t_cache t !! Tileset_Name (LT_Tileset tile) with
  | Some cached => mret (cached !! ID tile)
  | None =>
      _ ← cacheTileset (LT_Tileset tile);
      t ← receiver;
      let cached := default ∅ (t_cache t !! Tileset_Name (LT_Tileset tile)) in
      mret (cached !! ID tile)
  end.

End Renderer.

(** ** Vocabulary of the properties *)

Section Vocabulary.
Context {FL : Float64} {IM : Imaging} {FI : Files} {TI : Tiled}.

(** *** Numbers *)

Definition fopp (x : float64) : float64 := (of_int 0 - x)%F.

(** The number operations are exact: they form a commutative ring.  Real
    [float64] arithmetic meets this as long as no result is rounded and
    no infinity or NaN occurs. *)
Definition exact_arithmetic : Prop :=
  ring_theory (of_int 0) (of_int 1) fadd fmul fsub fopp eq.

(** The comparisons [<] and [==] of coordinates are those of an order:
    [<] is irreflexive and transitive, and [==] holds exactly between
    numbers that [<] does not separate, transitively.  [float64] meets
    this on all its values except NaN. *)
Record ordered_numbers : Prop := {
  flt_irrefl : forall a, fltb a a = false;
  flt_trans : forall a b c, fltb a b = true -> fltb b c = true -> fltb a c = true;
  feq_iff : forall a b, feqb a b = true <-> fltb a b = false /\ fltb b a = false;
  feq_trans : forall a b c, feqb a b = true -> feqb b c = true -> feqb a c = true
}.

(** The translation part of a matrix is zero. *)
Definition no_translation (g : GeoM) : Prop :=
  g_tx g = of_int 0 /\ g_ty g = of_int 0.

(** *** Orientation *)

(** The orientation steps in the words of the specification: the diagonal
    flip (a 270 degree rotation, then a horizontal flip), then the
    horizontal flip, then the vertical flip, each only if its flag is
    set. *)
Definition orient_steps (tile : LayerTile) : list (Image -> Image) :=
  (if DiagonalFlip tile then [Rotate270; FlipH] else []) ++
  (if HorizontalFlip tile then [FlipH] else []) ++
  (if VerticalFlip tile then [FlipV] else []).

Definition orient_tile_spec (tile : LayerTile) (img : Image) : Image :=
  fold_left (fun acc step => step acc) (orient_steps tile) img.

(** *** Objects *)

(** An object that [renderOneObject] goes on to resolve and draw. *)
Definition drawable (o : Object) : bool :=
  Object_Visible o && negb (GID o =? 0).

(** The object [o] moved to position [(x, y)]. *)
Definition with_position (o : Object) (x y : float64) : Object :=
  {| GID := GID o; X := x; Y := y; Width := Width o; Height := Height o;
     Rotation := Rotation o; Object_Visible := Object_Visible o |}.

(** The optional steps of the object transform. *)
Definition needs_scale (img : Image) (o : Object) : bool :=
  negb (Point_Eq (Rect_Size (Bounds img)) (Pt (to_int (Width o)) (to_int (Height o)))).

Definition needs_rotation (o : Object) : bool :=
  negb (feqb (Rotation o) (of_int 0)).

Definition object_scale (img : Image) (o : Object) (g : GeoM) : GeoM :=
  GeoM_Scale g
    (of_int (to_int (Width o)) / of_int (Pt_X (Rect_Size (Bounds img))))%F
    (of_int (to_int (Height o)) / of_int (Pt_Y (Rect_Size (Bounds img))))%F.

Definition object_rotation (o : Object) (g : GeoM) : GeoM :=
  GeoM_Rotate g (Rotation o * Pi / of_int 180)%F.

(** [a] has the position of [b]. *)
Definition object_same (a b : Object) : bool :=
  feqb (Y a) (Y b) && feqb (X a) (X b).

(** [a] is at a smaller Y than [b], or at the same Y and not at a greater
    X: ascending Y, ties broken by ascending X. *)
Definition row_then_column (a b : Object) : Prop :=
  fltb (Y a) (Y b) = true \/
  (feqb (Y a) (Y b) = true /\ fltb (X b) (X a) = false).

(** [a] does not have to come after [b] in the order of [less]. *)
Definition not_after {A : Type} (less : A -> A -> bool) (a b : A) : Prop :=
  less b a = false.

(** *** Loading and caching *)

(** The path handed to the file system and what the file system answers. *)
Definition open_path (fsys : option FS) (f : string) : string :=
  match fsys with None => FromSlash f | Some _ => ToSlash f end.

Definition open_file (fsys : option FS) (f : string) : result File :=
  match fsys with
  | None => os_Open (FromSlash f)
  | Some fsys => fsys (ToSlash f)
  end.

(** The source image at [f] cannot be opened, or opens and cannot be
    decoded; [e] is the error of the failing step. *)
Definition load_fails (fsys : option FS) (f : string) (e : error) : Prop :=
  open_file fsys f = Err e \/
  exists sf, open_file fsys f = Ok sf /\ image_Decode sf = Err e.

(** The source image at [f] opens and decodes to [img]. *)
Definition load_succeeds (fsys : option FS) (f : string) (img : Image) : Prop :=
  exists sf, open_file fsys f = Ok sf /\ image_Decode sf = Ok img.

(** The events of one attempt to load [f]. *)
Definition attempt_events (fsys : option FS) (f : string) : list io_event :=
  let p := open_path fsys f in
  match open_file fsys f with
  | Ok _ => [EvOpen p; EvDecode p; EvClose p]
  | _ => [EvOpen p]
  end.

(** The file of a shared tileset image. *)
Definition tileset_file (ts : Tileset) (image : ImageRef) : string :=
  GetFileFullPath ts (Source image).

(** The global IDs of a tileset as the loop computes them: [i + FirstGID]
    in [uint32] arithmetic for [i] below [uint32(TileCount)]. *)
Definition tileset_gids (ts : Tileset) : list Z :=
  (fun i => u32_add i (FirstGID ts)) <$> seqZ 0 (uint32 (TileCount ts)).

(** The cache written by the loop, and the image it picks. *)
Definition precache_insert (tile : LayerTile) (eimg : Image)
    (cache : gmap Z Image) (i : Z) : gmap Z Image :=
  <[u32_add i (FirstGID (LT_Tileset tile)) :=
      SubImage eimg (GetTileRect (LT_Tileset tile) i)]> cache.

End Vocabulary.

(** ** A concrete interpretation, for running the code *)

Module Demo.

(** Numbers are integers: exact, with the usual order.  Division is exact
    where the examples use it, and angles are taken in degrees ([Pi] is a
    half turn of 180), with sine and cosine exact at the quarter turns. *)
#[export] Instance Integers : Float64 := {|
  float64 := Z;
  of_int := fun z => z;
  to_int := fun z => z;
  fadd := Z.add;
  fsub := Z.sub;
  fmul := Z.mul;
  fdiv := Z.quot;
  feqb := Z.eqb;
  fltb := Z.ltb;
  Sincos := fun d =>
    match d mod 360 with
    | 90 => (1, 0)
    | 180 => (0, -1)
    | 270 => (-1, 0)
    | _ => (0, 1)
    end;
  Pi := 180
|}.

(** Images are grids of pixel values with the position of their top left
    corner. *)
Record Pixels := { origin : Point; rows : list (list Z) }.

Definition at_origin (rs : list (list Z)) : Pixels :=
  {| origin := Pt 0 0; rows := rs |}.

Fixpoint transpose (rs : list (list Z)) : list (list Z) :=
  match rs with
  | [] => []
  | r :: rs' =>
      match rs' with
      | [] => List.map (fun x => [x]) r
      | _ => zip_with cons r (transpose rs')
      end
  end.

Definition crop (img : Pixels) (rect : Rectangle) : Pixels :=
  let dx := Z.to_nat (Pt_X (Rect_Min rect) - Pt_X (origin img)) in
  let dy := Z.to_nat (Pt_Y (Rect_Min rect) - Pt_Y (origin img)) in
  let w := Z.to_nat (Pt_X (Rect_Max rect) - Pt_X (Rect_Min rect)) in
  let h := Z.to_nat (Pt_Y (Rect_Max rect) - Pt_Y (Rect_Min rect)) in
  {| origin := Rect_Min rect;
     rows := List.map (fun r => take w (drop dx r)) (take h (drop dy (rows img))) |}.

#[export] Instance Grids : Imaging := {|
  Image := Pixels;
  Bounds := fun img =>
    {| Rect_Min := origin img;
       Rect_Max := Pt (Pt_X (origin img) + len (List.hd [] (rows img)))
                      (Pt_Y (origin img) + len (rows img)) |};
  NewImageFromImage := fun img => at_origin (rows img);
  SubImage := crop;
  FlipH := fun img => at_origin (List.map (@rev Z) (rows img));
  FlipV := fun img => at_origin (rev (rows img));
  Rotate270 := fun img => at_origin (List.map (@rev Z) (transpose (rows img)))
|}.

(** One readable image file, one unreadable, and nothing else. *)
Definition sheet : Pixels :=
  at_origin [[1; 2; 3; 4]; [5; 6; 7; 8]; [9; 10; 11; 12]; [13; 14; 15; 16]].

#[export] Instance Disk : Files := {|
  File := string;
  os_Open := fun p =>
    if String.eqb p "tiles.png" || String.eqb p "broken.png" then Ok p
    else Err (ErrExternal "open: no such file");
  FromSlash := fun p => p;
  ToSlash := fun p => p;
  image_Decode := fun f =>
    if String.eqb f "tiles.png" then Ok sheet
    else Err (ErrExternal "image: unknown format")
|}.

(** Tilesets of 2 by 2 pixel tiles laid out in two columns. *)
Definition tiles : Tileset :=
  {| Tileset_Name := "tiles"; FirstGID := 1; TileCount := 4;
     Tileset_Image := Some {| Source := "tiles.png" |} |}.

Definition broken : Tileset :=
  {| Tileset_Name := "broken"; FirstGID := 5; TileCount := 4;
     Tileset_Image := Some {| Source := "broken.png" |} |}.

Definition missing : Tileset :=
  {| Tileset_Name := "missing"; FirstGID := 9; TileCount := 4;
     Tileset_Image := Some {| Source := "missing.png" |} |}.

Definition tile_of (ts : Tileset) (id : Z) : LayerTile :=
  {| ID := id; LT_Tileset := ts; HorizontalFlip := false;
     VerticalFlip := false; DiagonalFlip := false; Nil := false |}.

(** A tile of [tiles] with the given flip flags. *)
Definition flipped (d h v : bool) : LayerTile :=
  {| ID := 0; LT_Tileset := tiles; HorizontalFlip := h; VerticalFlip := v;
     DiagonalFlip := d; Nil := false |}.

#[export] Instance Tilesets : Tiled := {|
  TileGIDToTile := fun _ gid =>
    if gid <? 1 then Err (ErrExternal "tiled: invalid tile GID")
    else if gid <? 5 then Ok (tile_of tiles (gid - 1))
    else if gid <? 9 then Ok (tile_of broken (gid - 5))
    else Ok (tile_of missing (gid - 9));
  GetTilesetTile := fun _ _ => Err (ErrExternal "tiled: tile not found");
  GetFileFullPath := fun _ src => src;
  GetTileRect := fun _ i =>
    let x := i mod 2 in
    let y := i / 2 in
    {| Rect_Min := Pt (x * 2) (y * 2); Rect_Max := Pt ((x + 1) * 2) ((y + 1) * 2) |}
|}.

Definition object_at (gid y x : Z) : Object :=
  {| GID := gid; X := x; Y := y; Width := 2; Height := 2; Rotation := 0;
     Object_Visible := true |}.

(** An object of 8 by 8 pixels, turned by a quarter. *)
Definition turned (gid y x : Z) : Object :=
  {| GID := gid; X := x; Y := y; Width := 8; Height := 8; Rotation := 90;
     Object_Visible := true |}.

Definition objects : ObjectGroup :=
  {| ObjectGroup_Visible := true; ObjectGroup_Opacity := 1;
     Objects := [object_at 1 5 10; object_at 2 3 1; object_at 3 5 2] |}.

Definition ground : Layer :=
  {| Layer_Visible := true; Layer_Opacity := 1;
     Tiles := [tile_of tiles 0; tile_of tiles 1; tile_of tiles 2; tile_of tiles 3] |}.

Definition group : Group :=
  {| Group_Visible := true; Group_Layers := [ground]; Group_ObjectGroups := [objects] |}.

Definition map_with (orientation : string) : Map :=
  {| Orientation := orientation; RenderOrder := "right-down";
     Map_Width := 2; Map_Height := 2; TileWidth := 2; TileHeight := 2;
     Layers := [ground]; ObjectGroups := [objects]; Groups := [group] |}.

Definition orthogonal_map : Map := map_with "orthogonal".
Definition isometric_map : Map := map_with "isometric".

(** The renderer that [NewRenderer] builds for the orthogonal map. *)
Definition renderer : Renderer :=
  Clear_pure {| r_m := orthogonal_map; Result := None; tileCache := ∅;
                engine := OrthogonalRendererEngine orthogonal_map; r_fs := None |}.

Definition start : RState := (renderer, []).

(** The four slices of the sheet, by global ID, and the state of the
    renderer after it has resolved a tile of [tiles]. *)
Definition sheet_slices : gmap Z Image :=
  list_to_map
    [(1, {| origin := Pt 0 0; rows := [[1; 2]; [5; 6]] |});
     (2, {| origin := Pt 2 0; rows := [[3; 4]; [7; 8]] |});
     (3, {| origin := Pt 0 2; rows := [[9; 10]; [13; 14]] |});
     (4, {| origin := Pt 2 2; rows := [[11; 12]; [15; 16]] |})].

Definition loaded : RState :=
  (set_tileCache sheet_slices renderer,
   [EvOpen "tiles.png"; EvDecode "tiles.png"; EvClose "tiles.png"]).

(** The tileset cache after [tiles] has been cached. *)
Definition cached_tiles : TState :=
  snd (cacheTileset tiles (NewTilesetCache None, [])).

End Demo.

(** ** Vocabulary of the further properties *)

Section FurtherVocabulary.
Context {FL : Float64} {IM : Imaging} {FI : Files} {TI : Tiled}.

(** The draw calls made so far on the canvas of a state. *)
Definition canvas_draws (s : RState) : list DrawCall :=
  match Result (fst s) with
  | Some dst => draws dst
  | None => []
  end.

(** The canvas [c'] is the canvas [c] with further draw calls: it is there
    if and only if [c] is, has the size of [c], and its draw calls start
    with those of [c]. *)
Definition canvas_extends (c c' : option Canvas) : Prop :=
  match c, c' with
  | Some a, Some b =>
      Canvas_Width b = Canvas_Width a /\ Canvas_Height b = Canvas_Height a /\
      exists more, draws b = draws a ++ more
  | None, None => True
  | _, _ => False
  end.

(** What resolving a tile image may change: the tile cache, which keeps its
    keys, and the event trace, which keeps its events.  The map, the engine,
    the file system and the canvas stay as they are. *)
Definition only_cache_grows (s s' : RState) : Prop :=
  r_m (fst s') = r_m (fst s) /\ engine (fst s') = engine (fst s) /\
  r_fs (fst s') = r_fs (fst s) /\ Result (fst s') = Result (fst s) /\
  dom (tileCache (fst s)) ⊆ dom (tileCache (fst s')) /\
  exists events, snd s' = snd s ++ events.

(** What rendering may change: as above, and the canvas may get further
    draw calls. *)
Definition only_draws_and_cache_grow (s s' : RState) : Prop :=
  r_m (fst s') = r_m (fst s) /\ engine (fst s') = engine (fst s) /\
  r_fs (fst s') = r_fs (fst s) /\
  canvas_extends (Result (fst s)) (Result (fst s')) /\
  dom (tileCache (fst s)) ⊆ dom (tileCache (fst s')) /\
  exists events, snd s' = snd s ++ events.

(** Every run of the method [c] changes the state only as [R] allows. *)
Definition keeps {A} (R : RState -> RState -> Prop) (c : M RState A) : Prop :=
  forall s res s', c s = (res, s') -> R s s'.

(** *** Layers as sequences of cells *)

(** The render orders that [_renderLayer] accepts. *)
Definition supported_order (m : Map) : Prop :=
  RenderOrder m = ""%string \/ RenderOrder m = "right-down"%string.

(** The cell [(x, y)] of a grid of the given width with its tile, the tile
    at index [y * width + x] of the tile slice. *)
Definition cell_at (width : Z) (tiles : list LayerTile) (y x : Z)
  : list (Z * Z * LayerTile) :=
  match tiles !! Z.to_nat (y * width + x) with
  | Some t => [(x, y, t)]
  | None => []
  end.

(** The cells of a grid row by row, each row from left to right. *)
Definition layer_cells (width height : Z) (tiles : list LayerTile)
  : list (Z * Z * LayerTile) :=
  List.flat_map (fun y => List.flat_map (cell_at width tiles y) (seqZ 0 width))
                (seqZ 0 height).

(** What [_renderLayer] does at one cell. *)
Definition drawCell (layer : Layer) (cell : Z * Z * LayerTile) : M RState unit :=
  let '(x, y, t) := cell in
  if IsNil t then mret tt
  else
    img ← getTileImage t;
    r ← receiver;
    Result_DrawImage img (GetTilePosition (engine r) x y) (Layer_Opacity layer).

Definition cell_drawn (cell : Z * Z * LayerTile) : bool :=
  negb (IsNil (snd cell)).

(** The draw call of a cell of a layer, and of an object of an object
    group, for the image [img] that was resolved. *)
Definition cell_draw (layer : Layer) (e : RendererEngine)
    (cell : Z * Z * LayerTile) (img : Image) : DrawCall :=
  {| dc_img := img;
     dc_GeoM := GetTilePosition e (fst (fst cell)) (snd (fst cell));
     dc_alpha := Layer_Opacity layer |}.

Definition object_draw (objectGroup : ObjectGroup) (o : Object) (img : Image) : DrawCall :=
  {| dc_img := img; dc_GeoM := object_GeoM img o;
     dc_alpha := ObjectGroup_Opacity objectGroup |}.

(** The visible layers and object groups, in their order. *)
Definition visible_layers (l : list Layer) : list Layer :=
  List.filter Layer_Visible l.

Definition visible_object_groups (l : list ObjectGroup) : list ObjectGroup :=
  List.filter ObjectGroup_Visible l.

Definition visible_groups (l : list Group) : list Group :=
  List.filter Group_Visible l.

End FurtherVocabulary.

(** ** Further concrete data *)

Module DemoMore.
Import Demo.

(** A tileset of individual tile images: tile 0 has an image file, tile 1
    has none. *)
Definition singles : Tileset :=
  {| Tileset_Name := "singles"; FirstGID := 20; TileCount := 2;
     Tileset_Image := None |}.

(** A second tileset that calls itself "tiles". *)
Definition namesake : Tileset :=
  {| Tileset_Name := "tiles"; FirstGID := 30; TileCount := 9;
     Tileset_Image := Some {| Source := "broken.png" |} |}.

(** The map model extended by [singles]; global IDs from 22 on belong to
    no tileset. *)
Definition WithSingles : Tiled := {|
  TileGIDToTile := fun _ gid =>
    if gid <? 1 then Err (ErrExternal "tiled: invalid tile GID")
    else if gid <? 5 then Ok (tile_of tiles (gid - 1))
    else if (20 <=? gid) && (gid <? 22) then Ok (tile_of singles (gid - 20))
    else Err (ErrExternal "tiled: invalid tile GID");
  GetTilesetTile := fun _ id =>
    if id =? 0 then Ok {| TilesetTile_Image := Some {| Source := "tiles.png" |} |}
    else Err (ErrExternal "tiled: tile not found");
  GetFileFullPath := fun _ src => src;
  GetTileRect := fun _ i =>
    let x := i mod 2 in
    let y := i / 2 in
    {| Rect_Min := Pt (x * 2) (y * 2); Rect_Max := Pt ((x + 1) * 2) ((y + 1) * 2) |}
|}.

Definition load_events : list io_event :=
  [EvOpen "tiles.png"; EvDecode "tiles.png"; EvClose "tiles.png"].

(** The renderer with the given draw calls on its canvas. *)
Definition with_draws (ds : list DrawCall) (r : Renderer) : Renderer :=
  set_Result (Some {| Canvas_Width := 4; Canvas_Height := 4; draws := ds |}) r.

Definition tile_draw (rs : list (list Z)) (g : GeoM) : DrawCall :=
  {| dc_img := at_origin rs; dc_GeoM := g; dc_alpha := 1 |}.

Definition scaled (a d tx ty : Z) : GeoM :=
  {| a_1 := a - 1; g_b := 0; g_c := 0; d_1 := d - 1; g_tx := tx; g_ty := ty |}.

(** The state after the layer [ground] has been rendered. *)
Definition after_layer : RState :=
  (with_draws [tile_draw [[1; 2]; [5; 6]] (scaled 2 2 0 0);
               tile_draw [[3; 4]; [7; 8]] (scaled 4 2 8 0);
               tile_draw [[9; 10]; [13; 14]] (scaled 2 4 0 8);
               tile_draw [[11; 12]; [15; 16]] (scaled 4 4 8 8)]
     (set_tileCache sheet_slices renderer),
   load_events).

(** The state after the object group [objects] has been rendered. *)
Definition after_objects : RState :=
  (with_draws [tile_draw [[3; 4]; [7; 8]] GeoM_zero;
               tile_draw [[9; 10]; [13; 14]] GeoM_zero;
               tile_draw [[1; 2]; [5; 6]] GeoM_zero]
     (set_tileCache sheet_slices renderer),
   load_events).

(** The state after the tile 0 of [singles] has been resolved. *)
Definition after_single : RState :=
  (set_tileCache {[ 20 := sheet ]} renderer, load_events).

(** A layer with a tile too few for the 2 by 2 grid, and a layer of empty
    cells. *)
Definition nil_tile : LayerTile :=
  {| ID := 0; LT_Tileset := tiles; HorizontalFlip := false;
     VerticalFlip := false; DiagonalFlip := false; Nil := true |}.

Definition short_layer : Layer :=
  {| Layer_Visible := true; Layer_Opacity := 1;
     Tiles := [nil_tile; nil_tile; nil_tile] |}.

Definition empty_layer : Layer :=
  {| Layer_Visible := true; Layer_Opacity := 1;
     Tiles := [nil_tile; nil_tile; nil_tile; nil_tile] |}.

(** A renderer over a map with a render order that is not supported. *)
Definition left_up : RState :=
  (set_Result (Result renderer)
     {| r_m := {| Orientation := "orthogonal"; RenderOrder := "left-up";
                  Map_Width := 2; Map_Height := 2; TileWidth := 2; TileHeight := 2;
                  Layers := [ground]; ObjectGroups := [objects]; Groups := [group] |};
        Result := None; tileCache := ∅;
        engine := engine renderer; r_fs := None |},
   []).

(** An object group with an object of an unknown global ID in the middle
    of the sorted order. *)
Definition with_stranger : ObjectGroup :=
  {| ObjectGroup_Visible := true; ObjectGroup_Opacity := 1;
     Objects := [object_at 1 5 10; object_at 99 4 0; object_at 2 3 1] |}.

Definition before_stranger : RState :=
  (with_draws [tile_draw [[3; 4]; [7; 8]] GeoM_zero]
     (set_tileCache sheet_slices renderer),
   load_events).

End DemoMore.

(** ** Properties of the orthogonal engine *)

Section ExactArithmetic.
Context {FL : Float64} {IM : Imaging}.

Hypothesis Fring : exact_arithmetic.

Let Fring_theory : ring_theory (of_int 0) (of_int 1) fadd fmul fsub fopp eq := Fring.
Add Ring float_ring : Fring_theory.

Lemma GeoM_Apply_Translate (g : GeoM) (tx ty x y : float64) :
  a_1 g = of_int 0 -> g_b g = of_int 0 -> g_c g = of_int 0 -> d_1 g = of_int 0 ->
  GeoM_Apply (GeoM_Translate g tx ty) x y =
  translate_point tx ty (GeoM_Apply g x y).
Proof.
  intros Ha Hb Hc Hd. unfold GeoM_Apply, translate_point, GeoM_Translate; simpl.
  rewrite Ha, Hb, Hc, Hd. f_equal; ring.
Qed.

Lemma GeoM_Apply_Scale (g : GeoM) (sx sy x y : float64) :
  GeoM_Apply (GeoM_Scale g sx sy) x y = scale_point sx sy (GeoM_Apply g x y).
Proof.
  unfold GeoM_Apply, scale_point, GeoM_Scale; simpl. f_equal; ring.
Qed.

Lemma GeoM_Apply_zero (x y : float64) : GeoM_Apply GeoM_zero x y = (x, y).
Proof. unfold GeoM_Apply, GeoM_zero; simpl. f_equal; ring. Qed.


End ExactArithmetic.

(** Go's [int] arithmetic agrees with the integers while the result is
    representable. *)
Lemma int_exact (z : Z) : in_int z -> int z = z.
Proof.
  unfold in_int, int, wrap. intros H.
  change (2 ^ (64 - 1)) with (2 ^ 63). change (2 ^ 64) with (2 * 2 ^ 63).
  rewrite Z.mod_small by lia. lia.
Qed.

Lemma int_mul_exact (a b : Z) : in_int (a * b) -> int_mul a b = a * b.
Proof. apply int_exact. Qed.

Lemma int_add_exact (a b : Z) : in_int (a + b) -> int_add a b = a + b.
Proof. apply int_exact. Qed.

Section Orientation.
Context {FL : Float64} {IM : Imaging}.

(** C3.  [RotateTileImage] applies to the base image exactly the steps of
    [orient_steps], in that order: diagonal flip (horizontal flip of the
    270 degree rotation), then horizontal flip, then vertical flip, each
    conditional on its flag. *)
Theorem RotateTileImage_fixed_order (m : Map) (tile : LayerTile) (img : Image) :
  RotateTileImage (OrthogonalRendererEngine m) tile img = orient_tile_spec tile img /\
  orient_tile_spec tile img =
    (if VerticalFlip tile then FlipV else id)
      ((if HorizontalFlip tile then FlipH else id)
         ((if DiagonalFlip tile then fun i => FlipH (Rotate270 i) else id) img)).
Proof.
  unfold orient_tile_spec, orient_steps; cbn [RotateTileImage OrthogonalRendererEngine].
  unfold Orthogonal_RotateTileImage.
  destruct (DiagonalFlip tile), (HorizontalFlip tile), (VerticalFlip tile);
    split; reflexivity.
Qed.

End Orientation.

(** ** Running the methods *)

Ltac run_M :=
  cbv [mbind mret M_bind M_ret bind ret fail panic lift receiver update modify emit
       fst snd].

Section RendererProperties.
Context {FL : Float64} {IM : Imaging} {FI : Files} {TI : Tiled}.

Lemma for_each_app {S A} (f : A -> M S unit) (l1 l2 : list A) (s : S) :
  for_each f (l1 ++ l2) s =
  match for_each f l1 s with
  | (Ok _, s') => for_each f l2 s'
  | other => other
  end.
Proof.
  revert s. induction l1 as [|x l1 IH]; intros s; simpl.
  - reflexivity.
  - unfold bind. destruct (f x s) as [[u|e|] s']; try reflexivity.
    rewrite IH. reflexivity.
Qed.

(** *** Construction *)


(** *** Indexed accessors *)

(** C6.  Each indexed render method, called with an index that is at least
    the length of the sequence it indexes, returns [ErrOutOfBounds] and
    leaves the whole state (canvas, tile cache, event trace) as it was.
    For the two-index methods the inner index is checked against the
    sequence of the group that the (valid) group index selects. *)
Theorem indexed_render_out_of_bounds (s : RState) :
  let m := r_m (fst s) in
  (forall id, id >= len (Layers m) -> RenderLayer id s = (Err ErrOutOfBounds, s)) /\
  (forall id, id >= len (Groups m) -> RenderGroup id s = (Err ErrOutOfBounds, s)) /\
  (forall id, id >= len (ObjectGroups m) ->
     RenderObjectGroup id s = (Err ErrOutOfBounds, s)) /\
  (forall g l, g >= len (Groups m) ->
     RenderGroupLayer g l s = (Err ErrOutOfBounds, s) /\
     RenderGroupObjectGroup g l s = (Err ErrOutOfBounds, s)) /\
  (forall g l group, 0 <= g -> Groups m !! Z.to_nat g = Some group ->
     l >= len (Group_Layers group) ->
     RenderGroupLayer g l s = (Err ErrOutOfBounds, s)) /\
  (forall g l group, 0 <= g -> Groups m !! Z.to_nat g = Some group ->
     l >= len (Group_ObjectGroups group) ->
     RenderGroupObjectGroup g l s = (Err ErrOutOfBounds, s)).
Proof.
  destruct s as [r tr]; cbn [fst].
  assert (Hge : forall a b, a >= b -> (a >=? b) = true)
    by (intros; apply Z.geb_le; lia).
  assert (Hlt : forall (A : Type) (l : list A) g x, 0 <= g ->
            l !! Z.to_nat g = Some x -> (g >=? len l) = false /\ (g <? 0) = false).
  { intros A l g x H0 Hx. apply lookup_lt_Some in Hx. unfold len. split.
    - destruct (g >=? Z.of_nat (length l)) eqn:E; [|reflexivity].
      apply Z.geb_le in E. lia.
    - apply Z.ltb_ge. lia. }
  repeat split.
  - intros id H. unfold RenderLayer. run_M. rewrite (Hge _ _ H). reflexivity.
  - intros id H. unfold RenderGroup. run_M. rewrite (Hge _ _ H). reflexivity.
  - intros id H. unfold RenderObjectGroup. run_M. rewrite (Hge _ _ H). reflexivity.
  - unfold RenderGroupLayer. run_M. rewrite (Hge _ _ H). reflexivity.
  - unfold RenderGroupObjectGroup. run_M. rewrite (Hge _ _ H). reflexivity.
  - intros g l group H0 Hg Hl. destruct (Hlt _ _ _ _ H0 Hg) as [E1 E2].
    unfold RenderGroupLayer, index. run_M. rewrite E1, E2, Hg. run_M.
    rewrite (Hge _ _ Hl). reflexivity.
  - intros g l group H0 Hg Hl. destruct (Hlt _ _ _ _ H0 Hg) as [E1 E2].
    unfold RenderGroupObjectGroup, index. run_M. rewrite E1, E2, Hg. run_M.
    rewrite (Hge _ _ Hl). reflexivity.
Qed.

(** *** Skipped objects *)

Lemma renderOneObject_skip (layer : ObjectGroup) (o : Object) :
  drawable o = false -> renderOneObject layer o = mret tt.
Proof.
  unfold drawable, renderOneObject. intros H.
  destruct (Object_Visible o); [|reflexivity].
  destruct (GID o =? 0); [reflexivity|discriminate].
Qed.

Lemma for_each_filter_drawable (layer : ObjectGroup) (l : list Object) :
  for_each (renderOneObject layer) l =
  for_each (renderOneObject layer) (List.filter drawable l).
Proof.
  induction l as [|o l IH]; [reflexivity|]. cbn [for_each List.filter].
  destruct (drawable o) eqn:E.
  - cbn [for_each]. rewrite IH. reflexivity.
  - rewrite (renderOneObject_skip _ _ E). rewrite IH. reflexivity.
Qed.

(** C7.  An object whose GID is 0 or that is not visible is skipped:
    [renderOneObject] returns no error and leaves the state (canvas, tile
    cache, event trace) untouched; wherever the object stands in the
    sorted sequence, rendering the sequence is rendering it without the
    object; and rendering an object group is rendering its drawable
    objects only, among which the object is not. *)
Theorem skipped_objects (objectGroup : ObjectGroup) (o : Object) :
  GID o = 0 \/ Object_Visible o = false ->
  (forall s : RState, renderOneObject objectGroup o s = (Ok tt, s)) /\
  (forall (before after : list Object) (s : RState),
     for_each (renderOneObject objectGroup) (before ++ o :: after) s =
     for_each (renderOneObject objectGroup) (before ++ after) s) /\
  (forall s : RState,
     _renderObjectGroup objectGroup s =
     for_each (renderOneObject objectGroup)
       (List.filter drawable (SortAnySlice (Objects objectGroup) object_less)) s) /\
  ~ In o (List.filter drawable (SortAnySlice (Objects objectGroup) object_less)).
Proof.
  intros H.
  assert (E : drawable o = false).
  { unfold drawable. destruct H as [H|H]; rewrite H; [|reflexivity].
    apply andb_false_r. }
  pose proof (renderOneObject_skip objectGroup o E) as Hskip.
  repeat split.
  - intros s. rewrite Hskip. reflexivity.
  - intros before after s. rewrite !for_each_app.
    destruct (for_each (renderOneObject objectGroup) before s) as [[u|e|] s'];
      try reflexivity.
    cbn [for_each]. rewrite Hskip. reflexivity.
  - intros s. unfold _renderObjectGroup.
    rewrite for_each_filter_drawable. reflexivity.
  - intros Hin. apply filter_In in Hin. destruct Hin as [_ Hd]. congruence.
Qed.

End RendererProperties.

(** ** The transform of a rendered object *)

Section ObjectTransform.
Context {FL : Float64} {IM : Imaging} {FI : Files} {TI : Tiled}.

Lemma object_GeoM_shape (img : Image) (o : Object) :
  object_GeoM img o =
  (if needs_rotation o then object_rotation o else id)
    ((if needs_scale img o then object_scale img o else id) GeoM_zero).
Proof.
  unfold object_GeoM, needs_rotation, needs_scale, object_rotation, object_scale.
  cbn [Pt_X Pt_Y Pt].
  destruct (negb (Point_Eq _ _)), (negb (feqb _ _)); reflexivity.
Qed.

(** What a successful [renderOneObject] of a drawable object does: the
    tile image is resolved and exactly one draw call is appended to the
    canvas, with the transform [object_GeoM]. *)
Lemma renderOneObject_draw (layer : ObjectGroup) (o : Object) (s s' : RState) :
  drawable o = true ->
  renderOneObject layer o s = (Ok tt, s') ->
  exists tile img r1 tr1 dst,
    TileGIDToTile (r_m (fst s)) (GID o) = Ok tile /\
    getTileImage tile s = (Ok img, (r1, tr1)) /\
    Result r1 = Some dst /\
    s' = (set_Result (Some (DrawImage dst img (object_GeoM img o)
                              (ObjectGroup_Opacity layer))) r1, tr1).
Proof.
  unfold drawable, renderOneObject. intros Hd.
  apply andb_true_iff in Hd. destruct Hd as [Hv Hg].
  rewrite Hv. apply negb_true_iff in Hg. rewrite Hg. cbn [negb].
  destruct s as [r tr]. unfold Result_DrawImage. run_M.
  destruct (TileGIDToTile (r_m r) (GID o)) as [tile|e|] eqn:Htile; try discriminate.
  destruct (getTileImage tile (r, tr)) as [[img|e|] [r1 tr1]] eqn:Hget;
    try discriminate.
  destruct (Result r1) as [dst|] eqn:Hres; try discriminate.
  intros H. injection H as <-. exists tile, img, r1, tr1, dst. auto.
Qed.

Hypothesis Fring : exact_arithmetic.

Let Fring_theory : ring_theory (of_int 0) (of_int 1) fadd fmul fsub fopp eq := Fring.
Add Ring float_ring_obj : Fring_theory.

Lemma no_translation_zero : no_translation GeoM_zero.
Proof. split; reflexivity. Qed.

Lemma no_translation_Scale (g : GeoM) (x y : float64) :
  no_translation g -> no_translation (GeoM_Scale g x y).
Proof.
  intros [Hx Hy]. unfold no_translation, GeoM_Scale; cbn [g_tx g_ty].
  rewrite Hx, Hy. split; ring.
Qed.

Lemma no_translation_Rotate (g : GeoM) (theta : float64) :
  no_translation g -> no_translation (GeoM_Rotate g theta).
Proof.
  intros [Hx Hy]. unfold no_translation, GeoM_Rotate.
  destruct (feqb theta (of_int 0)); [split; assumption|].
  destruct (Sincos theta) as [sin cos]; cbn [g_tx g_ty].
  rewrite Hx, Hy. split; ring.
Qed.


End ObjectTransform.

(** ** Opening and decoding *)

Section Loading.
Context {FL : Float64} {IM : Imaging} {FI : Files} {TI : Tiled}.

Lemma open_with_run {R} (fsys : option FS) (f : string) (r : R) (tr : list io_event) :
  open_with fsys f (r, tr) =
  (match open_file fsys f with
   | Ok sf => Ok (open_path fsys f, sf)
   | Err e => Err e
   | Panic => Panic
   end, (r, tr ++ [EvOpen (open_path fsys f)])).
Proof.
  unfold open_with, open_file, open_path. destruct fsys as [fsys|]; run_M.
  - destruct (fsys (ToSlash f)); reflexivity.
  - destruct (os_Open (FromSlash f)); reflexivity.
Qed.

(** An attempt to load, followed by [k] on the decoded image: the common
    body of [getTileImageFromTileset] and [cacheTileset] up to the first
    use of the image. *)
Lemma load_then_run {R A} (fsys : option FS) (f : string)
    (k : Image -> M (R * list io_event) A) (r : R) (tr : list io_event) :
  (sf ← open_with fsys f; defer_Close (fst sf) (img ← Decode sf; k img)) (r, tr) =
  let p := open_path fsys f in
  match open_file fsys f with
  | Ok sf =>
      match image_Decode sf with
      | Ok img =>
          let '(res, (r', tr')) := k img (r, (tr ++ [EvOpen p]) ++ [EvDecode p]) in
          (res, (r', tr' ++ [EvClose p]))
      | Err e => (Err e, (r, tr ++ [EvOpen p; EvDecode p; EvClose p]))
      | Panic => (Panic, (r, tr ++ [EvOpen p; EvDecode p; EvClose p]))
      end
  | Err e => (Err e, (r, tr ++ [EvOpen p]))
  | Panic => (Panic, (r, tr ++ [EvOpen p]))
  end.
Proof.
  cbv [mbind M_bind bind]. rewrite open_with_run.
  destruct (open_file fsys f) as [sf|e|]; try reflexivity.
  unfold defer_Close, Decode. run_M.
  destruct (image_Decode sf) as [img|e|]; cbn [fst snd];
    rewrite <- ?app_assoc; reflexivity.
Qed.

Lemma load_fails_run {R A} (fsys : option FS) (f : string) (e : error)
    (k : Image -> M (R * list io_event) A) (r : R) (tr : list io_event) :
  load_fails fsys f e ->
  (sf ← open_with fsys f; defer_Close (fst sf) (img ← Decode sf; k img)) (r, tr) =
  (Err e, (r, tr ++ attempt_events fsys f)).
Proof.
  intros H. rewrite load_then_run. unfold attempt_events.
  destruct H as [H|(sf & H & Hd)]; rewrite H; [reflexivity|].
  rewrite Hd. reflexivity.
Qed.

End Loading.

(** ** The precaching loop *)

Section Precache.
Context {FL : Float64} {IM : Imaging} {FI : Files} {TI : Tiled}.

Lemma uint32_range (z : Z) : 0 <= uint32 z < 2 ^ 32.
Proof. unfold uint32. apply Z.mod_pos_bound. lia. Qed.

Lemma uint32_exact (z : Z) : in_uint32 z -> uint32 z = z.
Proof. unfold in_uint32, uint32. intros H. apply Z.mod_small. exact H. Qed.

Lemma u32_add_inj (f i j : Z) :
  0 <= i < 2 ^ 32 -> 0 <= j < 2 ^ 32 -> u32_add i f = u32_add j f -> i = j.
Proof.
  unfold u32_add, uint32. intros Hi Hj H.
  assert (D : (i - j) mod 2 ^ 32 = 0).
  { replace (i - j) with ((i + f) - (j + f)) by lia.
    rewrite Zminus_mod, H, Z.sub_diag. reflexivity. }
  apply Z.mod_divide in D; [|lia]. destruct D as [k Hk]. nia.
Qed.

Lemma NoDup_tileset_gids (ts : Tileset) : NoDup (tileset_gids ts).
Proof.
  unfold tileset_gids. apply NoDup_fmap_2_strong; [|apply NoDup_seqZ].
  intros i j Hi Hj. apply elem_of_seqZ in Hi, Hj.
  pose proof (uint32_range (TileCount ts)). apply u32_add_inj; lia.
Qed.

Lemma length_tileset_gids (ts : Tileset) :
  length (tileset_gids ts) = Z.to_nat (uint32 (TileCount ts)).
Proof. unfold tileset_gids. rewrite length_fmap. apply length_seqZ. Qed.

Lemma elem_of_tileset_gids (ts : Tileset) (k : Z) :
  k ∈ tileset_gids ts <->
  exists i, 0 <= i < uint32 (TileCount ts) /\ k = u32_add i (FirstGID ts).
Proof.
  unfold tileset_gids. rewrite list_elem_of_fmap. split.
  - intros (i & -> & Hi). apply elem_of_seqZ in Hi. exists i. split; [lia|reflexivity].
  - intros (i & Hi & ->). exists i. split; [reflexivity|]. apply elem_of_seqZ. lia.
Qed.

(** When the IDs do not leave the [uint32] range they are the interval
    from [FirstGID] to [FirstGID + TileCount - 1]. *)
Lemma tileset_gids_interval (ts : Tileset) (k : Z) :
  in_uint32 (TileCount ts) -> 0 <= FirstGID ts ->
  FirstGID ts + TileCount ts <= 2 ^ 32 ->
  k ∈ tileset_gids ts <-> FirstGID ts <= k <= FirstGID ts + TileCount ts - 1.
Proof.
  intros Hn Hf Hsum. rewrite elem_of_tileset_gids, (uint32_exact _ Hn).
  unfold in_uint32 in Hn. split.
  - intros (i & Hi & ->). unfold u32_add, uint32. rewrite Z.mod_small; lia.
  - intros Hk. exists (k - FirstGID ts). split; [lia|].
    unfold u32_add, uint32. rewrite Z.mod_small; lia.
Qed.

Lemma precache_fold (tile : LayerTile) (eimg : Image) (l : list Z)
    (cache : gmap Z Image) (timg : option Image) :
  fold_left (precache_step tile eimg) l (cache, timg) =
  (fold_left (precache_insert tile eimg) l cache,
   if decide (ID tile ∈ l)
   then Some (NewImageFromImage
                (SubImage eimg (GetTileRect (LT_Tileset tile) (ID tile))))
   else timg).
Proof.
  revert cache timg. induction l as [|i l IH]; intros cache timg.
  - cbn. destruct (decide (ID tile ∈ [])) as [H|H]; [|reflexivity].
    apply elem_of_nil in H. contradiction.
  - cbn [fold_left].
    assert (E : precache_step tile eimg (cache, timg) i =
                (precache_insert tile eimg cache i,
                 if ID tile =? i
                 then Some (NewImageFromImage
                              (SubImage eimg (GetTileRect (LT_Tileset tile) i)))
                 else timg)).
    { unfold precache_step, precache_insert. rewrite lookup_insert_eq. reflexivity. }
    rewrite E, IH. f_equal.
    destruct (Z.eqb_spec (ID tile) i) as [->|Hne].
    + destruct (decide (i ∈ l)), (decide (i ∈ i :: l)) as [|Hn]; try reflexivity.
      * exfalso. apply Hn. left.
      * exfalso. apply Hn. left.
    + destruct (decide (ID tile ∈ l)) as [Hin|Hin],
               (decide (ID tile ∈ i :: l)) as [Hin'|Hin']; try reflexivity.
      * exfalso. apply Hin'. right. exact Hin.
      * exfalso. apply elem_of_cons in Hin'. destruct Hin'; contradiction.
Qed.

Lemma dom_precache_fold (tile : LayerTile) (eimg : Image) (l : list Z)
    (cache : gmap Z Image) :
  dom (fold_left (precache_insert tile eimg) l cache) =
  dom cache ∪ list_to_set ((fun i => u32_add i (FirstGID (LT_Tileset tile))) <$> l).
Proof.
  revert cache. induction l as [|i l IH]; intros cache; cbn [fold_left].
  - rewrite fmap_nil, list_to_set_nil, union_empty_r_L. reflexivity.
  - rewrite IH. unfold precache_insert. rewrite dom_insert_L.
    rewrite fmap_cons, list_to_set_cons.
    rewrite (comm_L (∪) {[_]} (dom cache)), <- (assoc_L (∪)). reflexivity.
Qed.

Lemma lookup_precache_fold_other (tile : LayerTile) (eimg : Image) (l : list Z)
    (cache : gmap Z Image) (k : Z) :
  (forall j, j ∈ l -> u32_add j (FirstGID (LT_Tileset tile)) <> k) ->
  fold_left (precache_insert tile eimg) l cache !! k = cache !! k.
Proof.
  revert cache. induction l as [|j l IH]; intros cache Hl; [reflexivity|].
  cbn [fold_left]. rewrite IH.
  - unfold precache_insert. apply lookup_insert_ne. apply Hl. left.
  - intros j' Hj'. apply Hl. right. exact Hj'.
Qed.

Lemma lookup_precache_fold (tile : LayerTile) (eimg : Image) (l : list Z)
    (cache : gmap Z Image) (i : Z) :
  (forall j, j ∈ l -> 0 <= j < 2 ^ 32) ->
  i ∈ l ->
  fold_left (precache_insert tile eimg) l cache
    !! u32_add i (FirstGID (LT_Tileset tile)) =
  Some (SubImage eimg (GetTileRect (LT_Tileset tile) i)).
Proof.
  revert cache. induction l as [|j l IH]; intros cache Hl Hi.
  - apply elem_of_nil in Hi. contradiction.
  - cbn [fold_left].
    assert (Hl' : forall j', j' ∈ l -> 0 <= j' < 2 ^ 32)
      by (intros j' Hj'; apply Hl; right; exact Hj').
    destruct (decide (i ∈ l)) as [Hin|Hnin]; [apply IH; assumption|].
    apply elem_of_cons in Hi. destruct Hi as [->|Hi]; [|contradiction].
    rewrite lookup_precache_fold_other.
    + unfold precache_insert. apply lookup_insert_eq.
    + intros j' Hj' Heq. apply u32_add_inj in Heq.
      * subst j'. contradiction.
      * apply Hl'. exact Hj'.
      * apply Hl. left.
Qed.

Lemma lookup_precache (tile : LayerTile) (eimg : Image) (cache : gmap Z Image) (i : Z) :
  0 <= i < uint32 (TileCount (LT_Tileset tile)) ->
  fst (precache tile eimg cache) !! u32_add i (FirstGID (LT_Tileset tile)) =
  Some (SubImage eimg (GetTileRect (LT_Tileset tile) i)).
Proof.
  intros Hi. unfold precache. rewrite precache_fold. cbn [fst].
  pose proof (uint32_range (TileCount (LT_Tileset tile))) as Hn.
  apply lookup_precache_fold.
  - intros j Hj. apply elem_of_seqZ in Hj. lia.
  - apply elem_of_seqZ. lia.
Qed.

Lemma dom_precache (tile : LayerTile) (eimg : Image) (cache : gmap Z Image) :
  dom (fst (precache tile eimg cache)) =
  dom cache ∪ list_to_set (tileset_gids (LT_Tileset tile)).
Proof.
  unfold precache. rewrite precache_fold. cbn [fst]. apply dom_precache_fold.
Qed.

Lemma precache_found (tile : LayerTile) (eimg : Image) (cache : gmap Z Image) :
  snd (precache tile eimg cache) =
  if decide (0 <= ID tile < uint32 (TileCount (LT_Tileset tile)))
  then Some (NewImageFromImage
               (SubImage eimg (GetTileRect (LT_Tileset tile) (ID tile))))
  else None.
Proof.
  unfold precache. rewrite precache_fold. cbn [snd].
  destruct (decide (ID tile ∈ seqZ 0 (uint32 (TileCount (LT_Tileset tile))))) as [H|H];
    destruct (decide (0 <= ID tile < _)) as [H'|H']; try reflexivity.
  - apply elem_of_seqZ in H. lia.
  - exfalso. apply H. apply elem_of_seqZ. lia.
Qed.

Lemma size_tileset_gids (ts : Tileset) :
  size (list_to_set (tileset_gids ts) : gset Z) = Z.to_nat (uint32 (TileCount ts)).
Proof.
  rewrite size_list_to_set by apply NoDup_tileset_gids.
  apply length_tileset_gids.
Qed.

End Precache.

(** ** Tile-image resolution and the cache *)

Section Resolution.
Context {FL : Float64} {IM : Imaging} {FI : Files} {TI : Tiled}.

Lemma getTileImageFromTileset_run (tile : LayerTile) (image : ImageRef)
    (r : Renderer) (tr : list io_event) :
  Tileset_Image (LT_Tileset tile) = Some image ->
  getTileImageFromTileset tile (r, tr) =
  let f := tileset_file (LT_Tileset tile) image in
  let p := open_path (r_fs r) f in
  match open_file (r_fs r) f with
  | Ok sf =>
      match image_Decode sf with
      | Ok img =>
          let pc := precache tile (NewImageFromImage img) (tileCache r) in
          (match snd pc with
           | Some timg => Ok (RotateTileImage (engine r) tile timg)
           | None => Err (ErrTileImageNotFound (ID tile))
           end,
           (set_tileCache (fst pc) r, tr ++ [EvOpen p; EvDecode p; EvClose p]))
      | Err e => (Err e, (r, tr ++ [EvOpen p; EvDecode p; EvClose p]))
      | Panic => (Panic, (r, tr ++ [EvOpen p; EvDecode p; EvClose p]))
      end
  | Err e => (Err e, (r, tr ++ [EvOpen p]))
  | Panic => (Panic, (r, tr ++ [EvOpen p]))
  end.
Proof.
  intros Himg. unfold getTileImageFromTileset. rewrite Himg.
  change (GetFileFullPath (LT_Tileset tile) (Source image))
    with (tileset_file (LT_Tileset tile) image).
  set (f := tileset_file (LT_Tileset tile) image).
  set (k := fun img : Image =>
              r0 ← receiver;
              (let '(cache, timg) := precache tile (NewImageFromImage img) (tileCache r0) in
               _ ← update (set_tileCache cache);
               match timg with
               | Some timg0 => mret (RotateTileImage (engine r0) tile timg0)
               | None => fail (ErrTileImageNotFound (ID tile))
               end) : M RState Image).
  etransitivity; [exact (load_then_run (R:=Renderer) (r_fs r) f k r tr)|].
  cbv zeta.
  destruct (open_file (r_fs r) f) as [sf|e|]; try reflexivity.
  destruct (image_Decode sf) as [img|e|]; try reflexivity.
  unfold k. run_M.
  destruct (precache tile (NewImageFromImage img) (tileCache r)) as [cache [timg|]];
    cbn [fst snd]; rewrite <- !app_assoc; reflexivity.
Qed.

Lemma getTileImage_miss (tile : LayerTile) (image : ImageRef)
    (r : Renderer) (tr : list io_event) :
  Tileset_Image (LT_Tileset tile) = Some image ->
  tileCache r !! u32_add (FirstGID (LT_Tileset tile)) (ID tile) = None ->
  getTileImage tile (r, tr) = getTileImageFromTileset tile (r, tr).
Proof.
  intros Himg Hmiss. unfold getTileImage. run_M. rewrite Hmiss, Himg. reflexivity.
Qed.

(** C2.  A tile of a shared-image tileset is resolved through
    [getTileImage] while its global ID is not in the cache (the first
    touch).  If the call succeeds, the cache has gained exactly the global
    IDs of the tileset: [first_GID + i] for every [i] below the tile
    count, each bound to the slice of the decoded image at the rectangle
    of [i]; these are tile-count many distinct keys, and starting from the
    empty cache of a new renderer they are all the cache holds.  The
    requested tile is one of them.  (The count and the sums are the
    [uint32] values the loop computes; where nothing leaves the [uint32]
    range the keys are the interval from [first_GID] to
    [first_GID + tile_count - 1].) *)
Theorem shared_tileset_precached (tile : LayerTile) (image : ImageRef)
    (s s' : RState) (img : Image) :
  let ts := LT_Tileset tile in
  let n := uint32 (TileCount ts) in
  Tileset_Image ts = Some image ->
  tileCache (fst s) !! u32_add (FirstGID ts) (ID tile) = None ->
  getTileImage tile s = (Ok img, s') ->
  dom (tileCache (fst s')) = dom (tileCache (fst s)) ∪ list_to_set (tileset_gids ts) /\
  size (list_to_set (tileset_gids ts) : gset Z) = Z.to_nat n /\
  (forall k, k ∈ tileset_gids ts <-> exists i, 0 <= i < n /\ k = u32_add i (FirstGID ts)) /\
  (exists decoded,
     load_succeeds (r_fs (fst s)) (tileset_file ts image) decoded /\
     forall i, 0 <= i < n ->
       tileCache (fst s') !! u32_add i (FirstGID ts) =
       Some (SubImage (NewImageFromImage decoded) (GetTileRect ts i))) /\
  0 <= ID tile < n /\
  (tileCache (fst s) = ∅ ->
     dom (tileCache (fst s')) = list_to_set (tileset_gids ts) /\
     size (tileCache (fst s')) = Z.to_nat n) /\
  (in_uint32 (TileCount ts) -> 0 <= FirstGID ts -> FirstGID ts + TileCount ts <= 2 ^ 32 ->
     n = TileCount ts /\
     forall k, k ∈ tileset_gids ts <-> FirstGID ts <= k <= FirstGID ts + TileCount ts - 1).
Proof.
  intros ts n Himg Hmiss Hrun. destruct s as [r tr]. cbn [fst] in *.
  rewrite (getTileImage_miss _ _ _ _ Himg Hmiss) in Hrun.
  rewrite (getTileImageFromTileset_run _ _ _ _ Himg) in Hrun. cbv zeta in Hrun.
  destruct (open_file _ _) as [sf|e|] eqn:Hopen; try discriminate.
  destruct (image_Decode sf) as [dimg|e|] eqn:Hdec; try discriminate.
  set (eimg := NewImageFromImage dimg) in *.
  pose proof (precache_found tile eimg (tileCache r)) as Hfound.
  pose proof (dom_precache tile eimg (tileCache r)) as Hdom.
  destruct (snd (precache tile eimg (tileCache r))) as [timg|] eqn:Hsnd;
    try discriminate.
  injection Hrun as _ <-. cbn [fst tileCache set_tileCache].
  fold ts in Hfound, Hdom. fold n in Hfound.
  destruct (decide (0 <= ID tile < n)) as [Hid|Hid]; [|discriminate].
  split; [exact Hdom|].
  split; [apply size_tileset_gids|].
  split; [apply elem_of_tileset_gids|].
  split.
  { exists dimg. split; [exists sf; split; assumption|].
    intros i Hi. apply lookup_precache. exact Hi. }
  split; [exact Hid|].
  split.
  { intros Hempty.
    assert (Hdom' : dom (fst (precache tile eimg (tileCache r))) =
                    list_to_set (tileset_gids ts)).
    { rewrite Hdom, Hempty, dom_empty_L, union_empty_l_L. reflexivity. }
    split; [exact Hdom'|]. rewrite <- size_dom, Hdom'. apply size_tileset_gids. }
  intros Hn Hf Hsum. split; [apply uint32_exact, Hn|].
  intros k. apply tileset_gids_interval; assumption.
Qed.

(** *** Failures of the source image *)

Lemma cacheTileset_run (ts : Tileset) (image : ImageRef)
    (t : TilesetCache) (tr : list io_event) :
  Tileset_Image ts = Some image ->
  cacheTileset ts (t, tr) =
  let f := tileset_file ts image in
  let p := open_path (t_fs t) f in
  match open_file (t_fs t) f with
  | Ok sf =>
      match image_Decode sf with
      | Ok img =>
          (Ok tt,
           (set_t_cache (<[Tileset_Name ts := slice_tileset ts (NewImageFromImage img)]>
                           (t_cache t)) t,
            tr ++ [EvOpen p; EvDecode p; EvClose p]))
      | Err e => (Err e, (t, tr ++ [EvOpen p; EvDecode p; EvClose p]))
      | Panic => (Panic, (t, tr ++ [EvOpen p; EvDecode p; EvClose p]))
      end
  | Err e => (Err e, (t, tr ++ [EvOpen p]))
  | Panic => (Panic, (t, tr ++ [EvOpen p]))
  end.
Proof.
  intros Himg. unfold cacheTileset. rewrite Himg.
  change (GetFileFullPath ts (Source image)) with (tileset_file ts image).
  set (f := tileset_file ts image).
  set (k := fun img : Image =>
              update (fun t0 : TilesetCache =>
                        set_t_cache
                          (<[Tileset_Name ts := slice_tileset ts (NewImageFromImage img)]>
                             (t_cache t0)) t0) : M TState unit).
  etransitivity; [exact (load_then_run (R:=TilesetCache) (t_fs t) f k t tr)|].
  cbv zeta.
  destruct (open_file (t_fs t) f) as [sf|e|]; try reflexivity.
  destruct (image_Decode sf) as [img|e|]; try reflexivity.
  unfold k. run_M. rewrite <- !app_assoc. reflexivity.
Qed.

Lemma getTileImageFromTileset_fails (tile : LayerTile) (image : ImageRef) (e : error)
    (r : Renderer) (tr : list io_event) :
  Tileset_Image (LT_Tileset tile) = Some image ->
  load_fails (r_fs r) (tileset_file (LT_Tileset tile) image) e ->
  getTileImageFromTileset tile (r, tr) =
  (Err e, (r, tr ++ attempt_events (r_fs r) (tileset_file (LT_Tileset tile) image))).
Proof.
  intros Himg Hfail. rewrite (getTileImageFromTileset_run _ _ _ _ Himg). cbv zeta.
  unfold attempt_events.
  destruct Hfail as [H|(sf & H & Hd)]; rewrite H; [reflexivity|].
  rewrite Hd. reflexivity.
Qed.

Lemma cacheTileset_fails (ts : Tileset) (image : ImageRef) (e : error)
    (t : TilesetCache) (tr : list io_event) :
  Tileset_Image ts = Some image ->
  load_fails (t_fs t) (tileset_file ts image) e ->
  cacheTileset ts (t, tr) =
  (Err e, (t, tr ++ attempt_events (t_fs t) (tileset_file ts image))).
Proof.
  intros Himg Hfail. rewrite (cacheTileset_run _ _ _ _ Himg). cbv zeta.
  unfold attempt_events.
  destruct Hfail as [H|(sf & H & Hd)]; rewrite H; [reflexivity|].
  rewrite Hd. reflexivity.
Qed.

Lemma GetTileImage_miss (tile : LayerTile) (t : TilesetCache) (tr : list io_event) :
  t_cache t !! Tileset_Name (LT_Tileset tile) = None ->
  GetTileImage tile (t, tr) =
  match cacheTileset (LT_Tileset tile) (t, tr) with
  | (Ok _, (t', tr')) =>
      (Ok (default ∅ (t_cache t' !! Tileset_Name (LT_Tileset tile)) !! ID tile),
       (t', tr'))
  | (Err e, s') => (Err e, s')
  | (Panic, s') => (Panic, s')
  end.
Proof.
  intros Hmiss. unfold GetTileImage. run_M. rewrite Hmiss.
  destruct (cacheTileset (LT_Tileset tile) (t, tr)) as [[u|e|] [t' tr']]; reflexivity.
Qed.

(** C8.  The source image of a tileset cannot be opened, or cannot be
    decoded, with error [e].  Then resolving a tile of the tileset returns
    that very error and leaves the receiver, so its cache, as it was; the
    only change is the event trace, which grows by the events of one
    attempt, the first of which opens the file.  A second call does the
    same again: the failure was not remembered, the file is opened (and,
    if it opens, decoded) once more.  This holds for the renderer's
    [getTileImageFromTileset] and, on a cache miss, [getTileImage], and for
    the tileset cache's [cacheTileset] and, for a tileset not yet cached,
    [GetTileImage]. *)
Theorem decode_failure_not_cached (tile : LayerTile) (image : ImageRef)
    (fsys : option FS) (e : error) :
  let ts := LT_Tileset tile in
  let f := tileset_file ts image in
  let ev := attempt_events fsys f in
  Tileset_Image ts = Some image ->
  load_fails fsys f e ->
  (exists rest, ev = EvOpen (open_path fsys f) :: rest) /\
  (forall (r : Renderer) (tr : list io_event),
     r_fs r = fsys ->
     getTileImageFromTileset tile (r, tr) = (Err e, (r, tr ++ ev)) /\
     getTileImageFromTileset tile (r, tr ++ ev) = (Err e, (r, (tr ++ ev) ++ ev)) /\
     (tileCache r !! u32_add (FirstGID ts) (ID tile) = None ->
        getTileImage tile (r, tr) = (Err e, (r, tr ++ ev)) /\
        getTileImage tile (r, tr ++ ev) = (Err e, (r, (tr ++ ev) ++ ev)))) /\
  (forall (t : TilesetCache) (tr : list io_event),
     t_fs t = fsys ->
     cacheTileset ts (t, tr) = (Err e, (t, tr ++ ev)) /\
     cacheTileset ts (t, tr ++ ev) = (Err e, (t, (tr ++ ev) ++ ev)) /\
     (t_cache t !! Tileset_Name ts = None ->
        GetTileImage tile (t, tr) = (Err e, (t, tr ++ ev)) /\
        GetTileImage tile (t, tr ++ ev) = (Err e, (t, (tr ++ ev) ++ ev)))).
Proof.
  intros ts f ev Himg Hfail. split; [|split].
  - unfold ev, attempt_events. destruct (open_file fsys f); eexists; reflexivity.
  - intros r tr <-.
    assert (H : forall tr0, getTileImageFromTileset tile (r, tr0) = (Err e, (r, tr0 ++ ev)))
      by (intros tr0; apply getTileImageFromTileset_fails; assumption).
    split; [apply H|]. split; [apply H|].
    intros Hmiss. rewrite !(getTileImage_miss _ _ _ _ Himg Hmiss). split; apply H.
  - intros t tr <-.
    assert (H : forall tr0, cacheTileset ts (t, tr0) = (Err e, (t, tr0 ++ ev)))
      by (intros tr0; apply cacheTileset_fails; assumption).
    split; [apply H|]. split; [apply H|].
    intros Hmiss. rewrite !(GetTileImage_miss _ _ _ Hmiss). fold ts.
    rewrite !H. split; reflexivity.
Qed.

(** The same holds on the per-tile path: the image file of the tile is
    opened before anything is written to the cache. *)
Lemma getTileImageFromTile_fails (tile : LayerTile) (tilesetTile : TilesetTile)
    (image : ImageRef) (e : error) (r : Renderer) (tr : list io_event) :
  let f := GetFileFullPath (LT_Tileset tile) (Source image) in
  GetTilesetTile (LT_Tileset tile) (ID tile) = Ok tilesetTile ->
  TilesetTile_Image tilesetTile = Some image ->
  load_fails (r_fs r) f e ->
  getTileImageFromTile tile (r, tr) = (Err e, (r, tr ++ attempt_events (r_fs r) f)).
Proof.
  intros f Htile Himg Hfail. unfold getTileImageFromTile.
  cbv [mbind M_bind bind lift]. rewrite Htile, Himg. fold f.
  set (k := fun img : Image =>
              _ ← update (fun r0 =>
                     set_tileCache
                       (<[u32_add (FirstGID (LT_Tileset tile)) (ID tile) :=
                            NewImageFromImage img]> (tileCache r0)) r0);
              r0 ← receiver;
              mret (RotateTileImage (engine r0) tile (NewImageFromImage img))
              : M RState Image).
  etransitivity; [|exact (load_fails_run (R:=Renderer) (r_fs r) f e k r tr Hfail)].
  reflexivity.
Qed.

(** *** Absent local indices in the tileset cache *)

Lemma lookup_slice_fold (ts : Tileset) (eimg : Image) (l : list Z)
    (cache : gmap Z Image) (i : Z) :
  fold_left (fun cache i => <[i := SubImage eimg (GetTileRect ts i)]> cache) l cache !! i =
  if decide (i ∈ l) then Some (SubImage eimg (GetTileRect ts i)) else cache !! i.
Proof.
  revert cache. induction l as [|j l IH]; intros cache; cbn [fold_left].
  - destruct (decide (i ∈ [])) as [H|H]; [|reflexivity].
    apply elem_of_nil in H. contradiction.
  - rewrite IH. destruct (decide (i ∈ l)) as [Hin|Hnin].
    + destruct (decide (i ∈ j :: l)) as [|Hn]; [reflexivity|].
      exfalso. apply Hn. right. exact Hin.
    + destruct (decide (i = j)) as [->|Hne].
      * rewrite lookup_insert_eq. destruct (decide (j ∈ j :: l)) as [|Hn]; [reflexivity|].
        exfalso. apply Hn. left.
      * rewrite lookup_insert_ne by congruence.
        destruct (decide (i ∈ j :: l)) as [Hin'|]; [|reflexivity].
        apply elem_of_cons in Hin'. destruct Hin'; contradiction.
Qed.

Lemma lookup_slice_tileset (ts : Tileset) (eimg : Image) (i : Z) :
  slice_tileset ts eimg !! i =
  if decide (0 <= i < uint32 (TileCount ts))
  then Some (SubImage eimg (GetTileRect ts i)) else None.
Proof.
  unfold slice_tileset. rewrite lookup_slice_fold, lookup_empty.
  destruct (decide (i ∈ seqZ 0 (uint32 (TileCount ts)))) as [H|H];
    destruct (decide (0 <= i < _)) as [H'|H']; try reflexivity.
  - apply elem_of_seqZ in H. lia.
  - exfalso. apply H. apply elem_of_seqZ. lia.
Qed.

(** C9.  [GetTileImage] on a tile whose tileset is in the cache and whose
    local index the cached slices do not have returns the nil image with a
    nil error, and changes nothing (no file is opened).  The slices that
    [cacheTileset] stores are those of the indices from 0 up to the tile
    count (as the loop reads it, [uint32(TileCount)]), so this is the case
    for every local index outside that range once the tileset has been
    cached; and when the tileset is cached by the call itself the answer
    for such an index is the same. *)
Theorem GetTileImage_absent_index (tile : LayerTile) (t : TilesetCache)
    (tr : list io_event) :
  let ts := LT_Tileset tile in
  ~ (0 <= ID tile < uint32 (TileCount ts)) ->
  (forall cached, t_cache t !! Tileset_Name ts = Some cached ->
     cached !! ID tile = None ->
     GetTileImage tile (t, tr) = (Ok None, (t, tr))) /\
  (forall t0 tr0 tr1,
     cacheTileset ts (t0, tr0) = (Ok tt, (t, tr1)) ->
     GetTileImage tile (t, tr) = (Ok None, (t, tr))) /\
  (forall t1 tr1,
     t_cache t !! Tileset_Name ts = None ->
     cacheTileset ts (t, tr) = (Ok tt, (t1, tr1)) ->
     GetTileImage tile (t, tr) = (Ok None, (t1, tr1))) /\
  (in_uint32 (TileCount ts) -> uint32 (TileCount ts) = TileCount ts).
Proof.
  intros ts Hid.
  assert (Hcached : forall t0 tr0 t1 tr1,
            cacheTileset ts (t0, tr0) = (Ok tt, (t1, tr1)) ->
            exists cached, t_cache t1 !! Tileset_Name ts = Some cached /\
                           cached !! ID tile = None).
  { intros t0 tr0 t1 tr1 Hrun.
    destruct (Tileset_Image ts) as [image|] eqn:Himg;
      [|unfold cacheTileset in Hrun; fold ts in Hrun; rewrite Himg in Hrun;
        discriminate].
    rewrite (cacheTileset_run _ _ _ _ Himg) in Hrun. cbv zeta in Hrun.
    destruct (open_file _ _) as [sf|e|]; try discriminate.
    destruct (image_Decode sf) as [img|e|]; try discriminate.
    injection Hrun as <- _. eexists. cbn [t_cache set_t_cache].
    rewrite lookup_insert_eq. split; [reflexivity|].
    rewrite lookup_slice_tileset. destruct (decide _); [contradiction|reflexivity]. }
  assert (Hhit : forall cached, t_cache t !! Tileset_Name ts = Some cached ->
            cached !! ID tile = None ->
            GetTileImage tile (t, tr) = (Ok None, (t, tr))).
  { intros cached Hc Hnone. unfold GetTileImage. run_M. fold ts.
    rewrite Hc, Hnone. reflexivity. }
  split; [exact Hhit|]. split; [|split].
  - intros t0 tr0 tr1 Hrun.
    destruct (Hcached _ _ _ _ Hrun) as (cached & Hc & Hnone). eauto.
  - intros t1 tr1 Hmiss Hrun. rewrite (GetTileImage_miss _ _ _ Hmiss). fold ts.
    rewrite Hrun. destruct (Hcached _ _ _ _ Hrun) as (cached & Hc & Hnone).
    rewrite Hc. cbn [from_option id]. rewrite Hnone. reflexivity.
  - apply uint32_exact.
Qed.

End Resolution.

(** ** The stable sort *)

Section StableSort.
Context {A : Type} (less : A -> A -> bool).

Lemma sort_insert_perm (x : A) (l : list A) :
  Permutation (sort_insert less x l) (x :: l).
Proof.
  induction l as [|y l IH]; cbn [sort_insert]; [reflexivity|].
  destruct (less y x); [|reflexivity].
  rewrite IH. apply perm_swap.
Qed.

Lemma SortAnySlice_perm (l : list A) : Permutation (SortAnySlice l less) l.
Proof.
  unfold SortAnySlice. induction l as [|x l IH]; cbn [foldr]; [reflexivity|].
  rewrite sort_insert_perm. apply perm_skip. exact IH.
Qed.

Lemma sort_insert_filter_out (keep : A -> bool) (x : A) (l : list A) :
  keep x = false ->
  List.filter keep (sort_insert less x l) = List.filter keep l.
Proof.
  intros Hx. induction l as [|y l IH]; cbn [sort_insert List.filter].
  - rewrite Hx. reflexivity.
  - destruct (less y x); cbn [List.filter]; [rewrite IH|rewrite Hx]; reflexivity.
Qed.

Lemma sort_insert_filter_in (keep : A -> bool) (x : A) (l : list A) :
  (forall y, less y x = true -> keep y = false) ->
  keep x = true ->
  List.filter keep (sort_insert less x l) = x :: List.filter keep l.
Proof.
  intros Hpass Hx. induction l as [|y l IH]; cbn [sort_insert List.filter].
  - rewrite Hx. reflexivity.
  - destruct (less y x) eqn:E; cbn [List.filter].
    + rewrite (Hpass y E). exact IH.
    + rewrite Hx. reflexivity.
Qed.

(** Stability: the elements [keep] selects come out in their input order,
    whenever an element that the sort moves before a selected one is not
    itself selected. *)
Lemma SortAnySlice_filter (keep : A -> bool) (l : list A) :
  (forall x y, keep x = true -> less y x = true -> keep y = false) ->
  List.filter keep (SortAnySlice l less) = List.filter keep l.
Proof.
  intros Hpass. unfold SortAnySlice.
  induction l as [|x l IH]; cbn [foldr List.filter]; [reflexivity|].
  destruct (keep x) eqn:E.
  - rewrite sort_insert_filter_in; [rewrite IH; reflexivity| |exact E].
    intros y. apply Hpass. exact E.
  - rewrite sort_insert_filter_out by exact E. exact IH.
Qed.

Hypothesis less_asym : forall a b, less a b = true -> less b a = false.
Hypothesis not_after_trans :
  forall a b c, not_after less a b -> not_after less b c -> not_after less a c.

Lemma sort_insert_sorted (x : A) (l : list A) :
  StronglySorted (not_after less) l -> StronglySorted (not_after less) (sort_insert less x l).
Proof.
  induction 1 as [|y l Hs IH Hy]; cbn [sort_insert].
  - constructor; constructor.
  - destruct (less y x) eqn:E.
    + constructor; [exact IH|].
      eapply Permutation_Forall; [symmetry; apply sort_insert_perm|].
      constructor; [|exact Hy]. apply less_asym. exact E.
    + constructor; [constructor; assumption|].
      constructor; [exact E|].
      eapply List.Forall_impl; [|exact Hy]. intros z Hz.
      eapply not_after_trans; [exact E|exact Hz].
Qed.

Lemma SortAnySlice_sorted (l : list A) :
  StronglySorted (not_after less) (SortAnySlice l less).
Proof.
  unfold SortAnySlice. induction l as [|x l IH]; cbn [foldr].
  - constructor.
  - apply sort_insert_sorted. exact IH.
Qed.

(** Two sorted arrangements of the same elements are equal when no two
    different elements tie. *)
Lemma sorted_perm_unique (l1 l2 : list A) :
  (forall a, not_after less a a) ->
  (forall a b, In a l1 -> In b l1 -> not_after less a b -> not_after less b a -> a = b) ->
  StronglySorted (not_after less) l1 -> StronglySorted (not_after less) l2 ->
  Permutation l1 l2 -> l1 = l2.
Proof.
  intros Hrefl. revert l2.
  induction l1 as [|a l1 IH]; intros l2 Hanti S1 S2 HP.
  - apply Permutation_nil in HP. congruence.
  - destruct l2 as [|b l2].
    { symmetry in HP. apply Permutation_nil in HP. discriminate. }
    apply StronglySorted_inv in S1. destruct S1 as [S1 F1].
    apply StronglySorted_inv in S2. destruct S2 as [S2 F2].
    rewrite List.Forall_forall in F1, F2.
    assert (Hab : a = b).
    { assert (Ia : In a (b :: l2)).
      { eapply Permutation_in; [exact HP|]. simpl; auto. }
      assert (Ib : In b (a :: l1)).
      { eapply Permutation_in; [symmetry; exact HP|]. simpl; auto. }
      apply Hanti; [simpl; auto|exact Ib| |].
      - destruct Ib as [->|Ib]; [apply Hrefl|apply F1; exact Ib].
      - destruct Ia as [->|Ia]; [apply Hrefl|apply F2; exact Ia]. }
    subst b. f_equal. apply IH; try assumption.
    + intros x y Hx Hy. apply Hanti; simpl; auto.
    + eapply Permutation_cons_inv. exact HP.
Qed.

End StableSort.

(** ** The order of objects *)

Section ObjectOrder.
Context {FL : Float64} {IM : Imaging} {FI : Files} {TI : Tiled}.

Hypothesis ON : ordered_numbers.

Lemma feq_refl (a : float64) : feqb a a = true.
Proof. apply (feq_iff ON). split; apply (flt_irrefl ON). Qed.

Lemma feq_sym (a b : float64) : feqb a b = true -> feqb b a = true.
Proof. intros H. apply (feq_iff ON) in H. apply (feq_iff ON). tauto. Qed.

Lemma flt_asym (a b : float64) : fltb a b = true -> fltb b a = false.
Proof.
  intros H. destruct (fltb b a) eqn:E; [|reflexivity].
  pose proof (flt_trans ON _ _ _ H E) as C. rewrite (flt_irrefl ON) in C. discriminate.
Qed.

Lemma flt_cases (a b : float64) :
  fltb a b = true \/ feqb a b = true \/ fltb b a = true.
Proof.
  destruct (fltb a b) eqn:E1; [auto|]. destruct (fltb b a) eqn:E2; [auto|].
  right; left. apply (feq_iff ON). auto.
Qed.

Lemma feq_no_flt (a b : float64) :
  feqb a b = true -> fltb a b = false /\ fltb b a = false.
Proof. apply (feq_iff ON). Qed.

Lemma flt_feq (a b c : float64) :
  fltb a b = true -> feqb b c = true -> fltb a c = true.
Proof.
  intros Hab Hbc. destruct (flt_cases a c) as [H|[H|H]]; [exact H| |]; exfalso.
  - pose proof (feq_trans ON _ _ _ H (feq_sym _ _ Hbc)) as Hab'.
    apply feq_no_flt in Hab'. destruct Hab'. congruence.
  - pose proof (flt_trans ON _ _ _ H Hab) as Hcb.
    apply feq_no_flt in Hbc. destruct Hbc. congruence.
Qed.

Lemma feq_flt (a b c : float64) :
  feqb a b = true -> fltb b c = true -> fltb a c = true.
Proof.
  intros Hab Hbc. destruct (flt_cases a c) as [H|[H|H]]; [exact H| |]; exfalso.
  - pose proof (feq_trans ON _ _ _ (feq_sym _ _ Hab) H) as Hbc'.
    apply feq_no_flt in Hbc'. destruct Hbc'. congruence.
  - pose proof (flt_trans ON _ _ _ Hbc H) as Hba.
    apply feq_no_flt in Hab. destruct Hab. congruence.
Qed.

(** The comparison of the sort, read as a proposition. *)
Lemma object_less_true (a b : Object) :
  object_less a b = true <->
  fltb (Y a) (Y b) = true \/ (feqb (Y a) (Y b) = true /\ fltb (X a) (X b) = true).
Proof.
  unfold object_less. destruct (feqb (Y a) (Y b)) eqn:E; cbn [negb].
  - destruct (feq_no_flt _ _ E) as [E1 _]. rewrite E1.
    split; [auto|]. intros [H|[_ H]]; [discriminate|exact H].
  - split; [auto|]. intros [H|[H _]]; [exact H|discriminate].
Qed.

Lemma object_less_asym (a b : Object) :
  object_less a b = true -> object_less b a = false.
Proof.
  intros H. apply object_less_true in H.
  destruct (object_less b a) eqn:E; [|reflexivity]. exfalso.
  apply object_less_true in E. destruct H as [H|[H1 H2]], E as [E|[E1 E2]].
  - apply flt_asym in H. congruence.
  - apply feq_no_flt in E1. destruct E1. congruence.
  - apply feq_no_flt in H1. destruct H1. congruence.
  - apply flt_asym in H2. congruence.
Qed.

Lemma not_after_row_then_column (a b : Object) :
  not_after object_less a b <-> row_then_column a b.
Proof.
  unfold not_after, row_then_column. split.
  - intros H. destruct (flt_cases (Y a) (Y b)) as [Hy|[Hy|Hy]]; [auto| |].
    + right. split; [exact Hy|]. destruct (fltb (X b) (X a)) eqn:E; [|reflexivity].
      exfalso. assert (L : object_less b a = true); [|congruence].
      apply object_less_true. right. split; [apply feq_sym; exact Hy|exact E].
    + exfalso. assert (L : object_less b a = true); [|congruence].
      apply object_less_true. auto.
  - intros H. destruct (object_less b a) eqn:E; [|reflexivity]. exfalso.
    apply object_less_true in E. destruct H as [H|[H1 H2]], E as [E|[E1 E2]].
    + apply flt_asym in H. congruence.
    + apply feq_no_flt in E1. destruct E1. congruence.
    + apply feq_no_flt in H1. destruct H1. congruence.
    + congruence.
Qed.

Lemma object_not_after_trans (a b c : Object) :
  not_after object_less a b -> not_after object_less b c ->
  not_after object_less a c.
Proof.
  unfold not_after. intros Hba Hcb.
  destruct (object_less c a) eqn:E; [|reflexivity]. exfalso.
  apply object_less_true in E.
  assert (L : object_less b a = true \/ object_less c b = true);
    [|destruct L; congruence].
  rewrite !object_less_true.
  destruct E as [E|[E1 E2]].
  - destruct (flt_cases (Y b) (Y a)) as [H|[H|H]]; [auto| |].
    + right. left. eapply flt_feq; [exact E|apply feq_sym; exact H].
    + right. left. eapply (flt_trans ON); eassumption.
  - destruct (flt_cases (Y b) (Y a)) as [H|[H|H]]; [auto| |].
    + destruct (flt_cases (X b) (X a)) as [G|[G|G]]; [auto| |].
      * right. right. split.
        { eapply (feq_trans ON); [exact E1|apply feq_sym; exact H]. }
        { eapply flt_feq; [exact E2|apply feq_sym; exact G]. }
      * right. right. split.
        { eapply (feq_trans ON); [exact E1|apply feq_sym; exact H]. }
        { eapply (flt_trans ON); eassumption. }
    + right. left. eapply feq_flt; eassumption.
Qed.

Lemma object_not_after_refl (a : Object) : not_after object_less a a.
Proof.
  unfold not_after. destruct (object_less a a) eqn:E; [|reflexivity].
  pose proof (object_less_asym _ _ E). congruence.
Qed.

(** Objects at the position of [o] are not separated by the comparison. *)
Lemma object_same_not_less (o x y : Object) :
  object_same o x = true -> object_less y x = true -> object_same o y = false.
Proof.
  unfold object_same. intros Hx Hy.
  apply andb_true_iff in Hx. destruct Hx as [Hx1 Hx2].
  apply object_less_true in Hy.
  destruct (feqb (Y o) (Y y)) eqn:E1; [|reflexivity].
  destruct (feqb (X o) (X y)) eqn:E2; [|reflexivity]. exfalso.
  pose proof (feq_trans ON _ _ _ (feq_sym _ _ E1) Hx1) as Hy1.
  pose proof (feq_trans ON _ _ _ (feq_sym _ _ E2) Hx2) as Hy2.
  apply feq_no_flt in Hy1, Hy2. destruct Hy1 as [K1 _], Hy2 as [K2 _].
  destruct Hy as [K|[_ K]]; congruence.
Qed.

Lemma row_then_column_antisym (a b : Object) :
  row_then_column a b -> row_then_column b a -> object_same a b = true.
Proof.
  unfold row_then_column, object_same.
  intros [H|[H1 H2]] [G|[G1 G2]].
  - apply flt_asym in H. congruence.
  - apply feq_no_flt in G1. destruct G1. congruence.
  - apply feq_no_flt in H1. destruct H1. congruence.
  - rewrite H1. apply (feq_iff ON). auto.
Qed.

Lemma StronglySorted_weaken {A} (R R' : A -> A -> Prop) (l : list A) :
  (forall a b, R a b -> R' a b) -> StronglySorted R l -> StronglySorted R' l.
Proof.
  intros HR. induction 1 as [|x l Hs IH Hx]; constructor; [exact IH|].
  eapply List.Forall_impl; [|exact Hx]. intros y. apply HR.
Qed.


End ObjectOrder.

(** ** The code at concrete inputs *)

Module DemoFacts.
Import Demo.

Lemma Integers_exact : exact_arithmetic.
Proof.
  unfold exact_arithmetic, fopp. constructor; cbn; intros; lia.
Defined.

Lemma Integers_ordered : ordered_numbers.
Proof.
  constructor; cbn.
  - intros a. apply Z.ltb_irrefl.
  - intros a b c H1 H2. apply Z.ltb_lt in H1, H2. apply Z.ltb_lt. lia.
  - intros a b. rewrite Z.eqb_eq, !Z.ltb_ge. lia.
  - intros a b c H1 H2. apply Z.eqb_eq in H1, H2. apply Z.eqb_eq. lia.
Defined.

Example NewRenderer_orthogonal : NewRenderer orthogonal_map [] = (Ok renderer, []).
Proof. reflexivity. Qed.

Example NewRenderer_isometric :
  NewRenderer isometric_map [] = (Err ErrUnsupportedOrientation, []).
Proof. reflexivity. Qed.

(** The cell (1, 0) of a map of 2 by 2 pixel tiles: the translation by
    (2, 0) is itself scaled by (4, 2). *)
Example GetTilePosition_cell_1_0 :
  GetTilePosition (engine renderer) 1 0 =
  {| a_1 := 3; g_b := 0; g_c := 0; d_1 := 1; g_tx := 8; g_ty := 0 |}.
Proof. reflexivity. Qed.

(** The order of the orientation steps matters: diagonal then horizontal
    is not horizontal then diagonal. *)
Example RotateTileImage_diagonal_horizontal :
  RotateTileImage (engine renderer) (flipped true true false) (at_origin [[1; 2]; [3; 4]]) =
  at_origin [[3; 1]; [4; 2]].
Proof. reflexivity. Qed.

Example horizontal_then_diagonal_differs :
  FlipH (Rotate270 (FlipH (at_origin [[1; 2]; [3; 4]]))) = at_origin [[2; 4]; [1; 3]] /\
  RotateTileImage (engine renderer) (flipped true true false) (at_origin [[1; 2]; [3; 4]]) <>
  FlipH (Rotate270 (FlipH (at_origin [[1; 2]; [3; 4]]))).
Proof. split; [reflexivity|discriminate]. Qed.

(** The objects at (Y=5, X=10), (Y=3, X=1), (Y=5, X=2) are rendered in the
    order (Y=3, X=1), (Y=5, X=2), (Y=5, X=10). *)
Example SortAnySlice_objects :
  SortAnySlice (Objects objects) object_less =
  [object_at 2 3 1; object_at 3 5 2; object_at 1 5 10].
Proof. reflexivity. Qed.

(** Rendering the object group: one file is loaded, the three tile images
    are drawn in the sorted order, each with the identity transform. *)
Example renderObjectGroup_draws :
  let '(res, (r, tr)) := _renderObjectGroup objects start in
  res = Ok tt /\
  tr = [EvOpen "tiles.png"; EvDecode "tiles.png"; EvClose "tiles.png"] /\
  tileCache r = sheet_slices /\
  (draws <$> Result r) =
  Some [ {| dc_img := at_origin [[3; 4]; [7; 8]]; dc_GeoM := GeoM_zero; dc_alpha := 1 |};
         {| dc_img := at_origin [[9; 10]; [13; 14]]; dc_GeoM := GeoM_zero; dc_alpha := 1 |};
         {| dc_img := at_origin [[1; 2]; [5; 6]]; dc_GeoM := GeoM_zero; dc_alpha := 1 |} ].
Proof. repeat split; reflexivity. Qed.

(** A second resolution of a tile of the same tileset is served from the
    cache: no file event is added. *)
Example getTileImage_cache_hit :
  getTileImage (tile_of tiles 1) loaded = (Ok (at_origin [[3; 4]; [7; 8]]), loaded).
Proof. reflexivity. Qed.

(** A tile index beyond the tile count: the tileset is precached all the
    same and the call fails. *)
Example getTileImage_index_beyond_count :
  getTileImage (tile_of tiles 4) start = (Err (ErrTileImageNotFound 4), loaded).
Proof. reflexivity. Qed.

(** *** The properties at concrete inputs *)


Example getTileImage_first_touch :
  getTileImage (tile_of tiles 2) start =
  (Ok (at_origin [[9; 10]; [13; 14]]), loaded).
Proof. reflexivity. Qed.

Lemma shared_tileset_precached_witness :
  size (tileCache (fst loaded)) = 4%nat /\
  (forall k, k ∈ tileset_gids tiles <-> 1 <= k <= 1 + 4 - 1).
Proof.
  assert (E : getTileImage (tile_of tiles 2) start =
              (Ok (at_origin [[9; 10]; [13; 14]]), loaded)) by reflexivity.
  destruct (shared_tileset_precached (tile_of tiles 2) {| Source := "tiles.png" |}
              start loaded _ eq_refl eq_refl E)
    as (_ & _ & _ & _ & _ & Hfresh & Hrange).
  split.
  - apply Hfresh. reflexivity.
  - apply Hrange; [split; [discriminate|reflexivity]|cbn; lia|cbn; lia].
Defined.



Lemma indexed_render_out_of_bounds_witness :
  RenderLayer 1 start = (Err ErrOutOfBounds, start) /\
  RenderGroupObjectGroup 0 1 start = (Err ErrOutOfBounds, start).
Proof.
  destruct (indexed_render_out_of_bounds start) as (H1 & _ & _ & _ & _ & H2).
  split.
  - apply H1. vm_compute. discriminate.
  - apply (H2 0 1 group); [lia|reflexivity|vm_compute; discriminate].
Defined.

Lemma skipped_objects_witness :
  renderOneObject objects (object_at 0 7 7) start = (Ok tt, start).
Proof.
  destruct (skipped_objects objects (object_at 0 7 7)) as (H & _).
  - left. reflexivity.
  - apply H.
Defined.

Lemma decode_failure_not_cached_witness :
  getTileImage (tile_of broken 0) start =
    (Err (ErrExternal "image: unknown format"),
     (renderer, [EvOpen "broken.png"; EvDecode "broken.png"; EvClose "broken.png"])) /\
  GetTileImage (tile_of missing 0) (NewTilesetCache None, []) =
    (Err (ErrExternal "open: no such file"),
     (NewTilesetCache None, [EvOpen "missing.png"])).
Proof.
  split.
  - destruct (decode_failure_not_cached (tile_of broken 0) {| Source := "broken.png" |}
                None (ErrExternal "image: unknown format") eq_refl) as (_ & H & _).
    + right. exists "broken.png"%string. split; reflexivity.
    + destruct (H renderer [] eq_refl) as (_ & _ & H').
      destruct (H' eq_refl) as (H1 & _). exact H1.
  - destruct (decode_failure_not_cached (tile_of missing 0) {| Source := "missing.png" |}
                None (ErrExternal "open: no such file") eq_refl) as (_ & _ & H).
    + left. reflexivity.
    + destruct (H (NewTilesetCache None) [] eq_refl) as (_ & _ & H').
      destruct (H' eq_refl) as (H1 & _). exact H1.
Defined.

Lemma GetTileImage_absent_index_witness :
  GetTileImage (tile_of tiles 7) cached_tiles = (Ok None, cached_tiles).
Proof.
  destruct (GetTileImage_absent_index (tile_of tiles 7) (fst cached_tiles) (snd cached_tiles))
    as (_ & H & _).
  - vm_compute. intros [_ H]. discriminate H.
  - apply (H (NewTilesetCache None) [] (snd cached_tiles)). reflexivity.
Defined.


End DemoFacts.

(** ** What the methods leave unchanged *)

Section Frame.
Context {FL : Float64} {IM : Imaging} {FI : Files} {TI : Tiled}.

Lemma canvas_extends_refl (c : option Canvas) : canvas_extends c c.
Proof.
  destruct c as [c|]; cbn; [|exact I].
  repeat split. exists []. rewrite app_nil_r. reflexivity.
Qed.

Lemma canvas_extends_trans (a b c : option Canvas) :
  canvas_extends a b -> canvas_extends b c -> canvas_extends a c.
Proof.
  destruct a as [a|], b as [b|], c as [c|]; cbn; try tauto.
  intros (W1 & H1 & d1 & D1) (W2 & H2 & d2 & D2).
  split; [congruence|]. split; [congruence|].
  exists (d1 ++ d2). rewrite D2, D1, app_assoc. reflexivity.
Qed.

Lemma grow_refl (s : RState) : only_draws_and_cache_grow s s.
Proof.
  unfold only_draws_and_cache_grow. repeat split; try reflexivity.
  - apply canvas_extends_refl.
  - exists []. rewrite app_nil_r. reflexivity.
Qed.

Lemma grow_trans (s1 s2 s3 : RState) :
  only_draws_and_cache_grow s1 s2 -> only_draws_and_cache_grow s2 s3 ->
  only_draws_and_cache_grow s1 s3.
Proof.
  intros (A1 & B1 & C1 & D1 & E1 & ev1 & F1) (A2 & B2 & C2 & D2 & E2 & ev2 & F2).
  unfold only_draws_and_cache_grow.
  split; [congruence|]. split; [congruence|]. split; [congruence|].
  split; [eapply canvas_extends_trans; eassumption|].
  split; [etransitivity; eassumption|].
  exists (ev1 ++ ev2). rewrite F2, F1, app_assoc. reflexivity.
Qed.

Lemma cache_grows_refl (s : RState) : only_cache_grows s s.
Proof.
  unfold only_cache_grows. repeat split; try reflexivity.
  exists []. rewrite app_nil_r. reflexivity.
Qed.

Lemma cache_grows_trans (s1 s2 s3 : RState) :
  only_cache_grows s1 s2 -> only_cache_grows s2 s3 -> only_cache_grows s1 s3.
Proof.
  intros (A1 & B1 & C1 & D1 & E1 & ev1 & F1) (A2 & B2 & C2 & D2 & E2 & ev2 & F2).
  unfold only_cache_grows.
  split; [congruence|]. split; [congruence|]. split; [congruence|].
  split; [congruence|].
  split; [etransitivity; eassumption|].
  exists (ev1 ++ ev2). rewrite F2, F1, app_assoc. reflexivity.
Qed.

Lemma cache_grows_grow (s s' : RState) :
  only_cache_grows s s' -> only_draws_and_cache_grow s s'.
Proof.
  intros (A & B & C & D & E & F). unfold only_draws_and_cache_grow.
  repeat (split; [assumption|]). split; [|split; assumption].
  rewrite D. apply canvas_extends_refl.
Qed.

(** The combinators keep what their parts keep. *)
Lemma keeps_bind {A B} (R : RState -> RState -> Prop) (c : M RState A)
    (k : A -> M RState B) :
  (forall s, R s s) -> (forall a b c, R a b -> R b c -> R a c) ->
  keeps R c -> (forall a, keeps R (k a)) -> keeps R (c ≫= k).
Proof.
  intros Hrefl Htrans Hc Hk s res s' Hrun.
  cbv [mbind M_bind bind] in Hrun.
  destruct (c s) as [[a|e|] s1] eqn:E.
  - eapply Htrans; [eapply Hc; exact E|eapply Hk; exact Hrun].
  - injection Hrun as _ <-. eapply Hc. exact E.
  - injection Hrun as _ <-. eapply Hc. exact E.
Qed.

Lemma keeps_pure {A} (R : RState -> RState -> Prop) (res : result A) :
  (forall s, R s s) -> keeps R (lift res).
Proof. intros Hrefl s r s' H. injection H as _ <-. apply Hrefl. Qed.

Lemma keeps_for_each {A} (R : RState -> RState -> Prop) (f : A -> M RState unit)
    (l : list A) :
  (forall s, R s s) -> (forall a b c, R a b -> R b c -> R a c) ->
  (forall a, keeps R (f a)) -> keeps R (for_each f l).
Proof.
  intros Hrefl Htrans Hf. induction l as [|x l IH]; cbn [for_each].
  - apply (keeps_pure R (Ok tt)). exact Hrefl.
  - apply (keeps_bind R (f x) (fun _ => for_each f l)); auto.
Qed.

Lemma keeps_fold_each {A B} (R : RState -> RState -> Prop) (f : B -> A -> M RState B)
    (l : list A) (b : B) :
  (forall s, R s s) -> (forall a b c, R a b -> R b c -> R a c) ->
  (forall b a, keeps R (f b a)) -> keeps R (fold_each f l b).
Proof.
  intros Hrefl Htrans Hf. revert b. induction l as [|x l IH]; intros b; cbn [fold_each].
  - apply (keeps_pure R (Ok b)). exact Hrefl.
  - apply (keeps_bind R (f b x) (fun b' => fold_each f l b')); auto.
Qed.

End Frame.

(** ** Resolving tile images: the remaining paths *)

Section ResolutionPaths.
Context {FL : Float64} {IM : Imaging} {FI : Files} {TI : Tiled}.

Lemma getTileImageFromTile_run (tile : LayerTile) (r : Renderer) (tr : list io_event) :
  getTileImageFromTile tile (r, tr) =
  match GetTilesetTile (LT_Tileset tile) (ID tile) with
  | Ok tilesetTile =>
      match TilesetTile_Image tilesetTile with
      | None => (Panic, (r, tr))
      | Some image =>
          let f := GetFileFullPath (LT_Tileset tile) (Source image) in
          let p := open_path (r_fs r) f in
          match open_file (r_fs r) f with
          | Ok sf =>
              match image_Decode sf with
              | Ok img =>
                  let timg := NewImageFromImage img in
                  (Ok (RotateTileImage (engine r) tile timg),
                   (set_tileCache
                      (<[u32_add (FirstGID (LT_Tileset tile)) (ID tile) := timg]>
                         (tileCache r)) r,
                    tr ++ [EvOpen p; EvDecode p; EvClose p]))
              | Err e => (Err e, (r, tr ++ [EvOpen p; EvDecode p; EvClose p]))
              | Panic => (Panic, (r, tr ++ [EvOpen p; EvDecode p; EvClose p]))
              end
          | Err e => (Err e, (r, tr ++ [EvOpen p]))
          | Panic => (Panic, (r, tr ++ [EvOpen p]))
          end
      end
  | Err e => (Err e, (r, tr))
  | Panic => (Panic, (r, tr))
  end.
Proof.
  unfold getTileImageFromTile. cbv [mbind M_bind bind lift].
  destruct (GetTilesetTile (LT_Tileset tile) (ID tile)) as [tilesetTile|e|];
    try reflexivity.
  destruct (TilesetTile_Image tilesetTile) as [image|]; [|reflexivity].
  set (f := GetFileFullPath (LT_Tileset tile) (Source image)).
  set (k := fun img : Image =>
              _ ← update (fun r0 =>
                     set_tileCache
                       (<[u32_add (FirstGID (LT_Tileset tile)) (ID tile) :=
                            NewImageFromImage img]> (tileCache r0)) r0);
              r0 ← receiver;
              mret (RotateTileImage (engine r0) tile (NewImageFromImage img))
              : M RState Image).
  etransitivity; [exact (load_then_run (R:=Renderer) (r_fs r) f k r tr)|].
  cbv zeta.
  destruct (open_file (r_fs r) f) as [sf|e|]; try reflexivity.
  destruct (image_Decode sf) as [img|e|]; try reflexivity.
  unfold k. run_M. rewrite <- !app_assoc. reflexivity.
Qed.

Lemma getTileImage_outcome (tile : LayerTile) (r r' : Renderer)
    (tr tr' : list io_event) (res : result Image) :
  getTileImage tile (r, tr) = (res, (r', tr')) ->
  only_cache_grows (r, tr) (r', tr') /\
  (tr' = tr \/ exists f, tr' = tr ++ attempt_events (r_fs r) f).
Proof.
  assert (Hnone : only_cache_grows (r, tr) (r, tr) /\
            (tr = tr \/ exists f, tr = tr ++ attempt_events (r_fs r) f)).
  { split; [apply cache_grows_refl|left; reflexivity]. }
  assert (Hsame : forall f,
            only_cache_grows (r, tr) (r, tr ++ attempt_events (r_fs r) f) /\
            (tr ++ attempt_events (r_fs r) f = tr \/
             exists f0, tr ++ attempt_events (r_fs r) f = tr ++ attempt_events (r_fs r) f0)).
  { intros f. split; [|right; eauto].
    unfold only_cache_grows; cbn [fst snd]. repeat split; try reflexivity. eauto. }
  assert (Hcache : forall c f,
            dom (tileCache r) ⊆ dom c ->
            only_cache_grows (r, tr) (set_tileCache c r, tr ++ attempt_events (r_fs r) f) /\
            (tr ++ attempt_events (r_fs r) f = tr \/
             exists f0, tr ++ attempt_events (r_fs r) f = tr ++ attempt_events (r_fs r) f0)).
  { intros c f Hc. split; [|right; eauto].
    unfold only_cache_grows; cbn [fst snd set_tileCache r_m engine r_fs Result tileCache].
    repeat split; try reflexivity; eauto. }
  unfold getTileImage. run_M.
  destruct (tileCache r !! u32_add (FirstGID (LT_Tileset tile)) (ID tile)) as [timg|].
  { intros H. injection H as _ <- <-. exact Hnone. }
  destruct (Tileset_Image (LT_Tileset tile)) as [image|] eqn:Himg.
  - rewrite (getTileImageFromTileset_run _ _ _ _ Himg). cbv zeta.
    set (f := tileset_file (LT_Tileset tile) image).
    specialize (Hsame f). pose proof (fun c => Hcache c f) as Hc. clear Hcache.
    unfold attempt_events in Hsame, Hc.
    destruct (open_file (r_fs r) f) as [sf|e|].
    + destruct (image_Decode sf) as [img|e|]; intros H; injection H as _ <- <-;
        try exact Hsame.
      apply Hc. rewrite dom_precache. apply union_subseteq_l.
    + intros H; injection H as _ <- <-. exact Hsame.
    + intros H; injection H as _ <- <-. exact Hsame.
  - rewrite getTileImageFromTile_run.
    destruct (GetTilesetTile (LT_Tileset tile) (ID tile)) as [tilesetTile|e|];
      try (intros H; injection H as _ <- <-; exact Hnone).
    destruct (TilesetTile_Image tilesetTile) as [image|];
      try (intros H; injection H as _ <- <-; exact Hnone).
    cbv zeta. set (f := GetFileFullPath (LT_Tileset tile) (Source image)).
    specialize (Hsame f). pose proof (fun c => Hcache c f) as Hc. clear Hcache.
    unfold attempt_events in Hsame, Hc.
    destruct (open_file (r_fs r) f) as [sf|e|].
    + destruct (image_Decode sf) as [img|e|]; intros H; injection H as _ <- <-;
        try exact Hsame.
      apply Hc. rewrite dom_insert_L. apply union_subseteq_r.
    + intros H; injection H as _ <- <-. exact Hsame.
    + intros H; injection H as _ <- <-. exact Hsame.
Qed.

End ResolutionPaths.

(** ** Rendering: what changes and what does not *)

Section RenderingFrame.
Context {FL : Float64} {IM : Imaging} {FI : Files} {TI : Tiled}.

Lemma keeps_unchanged {A} (c : M RState A) :
  (forall s, snd (c s) = s) -> keeps only_draws_and_cache_grow c.
Proof.
  intros H s res s' Hrun. specialize (H s). rewrite Hrun in H. cbn in H. subst s'.
  apply grow_refl.
Qed.

Lemma keeps_receiver : keeps only_draws_and_cache_grow (receiver (R:=Renderer)).
Proof. apply keeps_unchanged. reflexivity. Qed.

Lemma keeps_mret {A} (a : A) : keeps only_draws_and_cache_grow (mret a).
Proof. apply keeps_unchanged. reflexivity. Qed.

Lemma keeps_fail {A} (e : error) : keeps only_draws_and_cache_grow (fail (A:=A) e).
Proof. apply keeps_unchanged. reflexivity. Qed.

Lemma keeps_lift {A} (res : result A) : keeps only_draws_and_cache_grow (lift res).
Proof. apply keeps_unchanged. reflexivity. Qed.

Lemma keeps_index {A} (l : list A) (i : Z) : keeps only_draws_and_cache_grow (index l i).
Proof.
  apply keeps_unchanged. intros s. unfold index.
  destruct (i <? 0); [reflexivity|]. destruct (l !! Z.to_nat i); reflexivity.
Qed.

Lemma keeps_grows_bind {A B} (c : M RState A) (k : A -> M RState B) :
  keeps only_draws_and_cache_grow c -> (forall a, keeps only_draws_and_cache_grow (k a)) -> keeps only_draws_and_cache_grow (c ≫= k).
Proof. apply keeps_bind; [exact grow_refl|exact grow_trans]. Qed.

Lemma keeps_getTileImage (tile : LayerTile) : keeps only_draws_and_cache_grow (getTileImage tile).
Proof.
  intros [r tr] res [r' tr'] Hrun. apply cache_grows_grow.
  eapply getTileImage_outcome. exact Hrun.
Qed.

Lemma keeps_Result_DrawImage (img : Image) (geom : GeoM) (alpha : float64) :
  keeps only_draws_and_cache_grow (Result_DrawImage img geom alpha).
Proof.
  intros [r tr] res [r' tr']. unfold Result_DrawImage. run_M.
  destruct (Result r) as [dst|] eqn:Hres; intros H; injection H as _ <- <-.
  - unfold only_draws_and_cache_grow;
      cbn [fst snd set_Result r_m engine r_fs Result tileCache].
    rewrite Hres. cbn [canvas_extends DrawImage Canvas_Width Canvas_Height draws].
    repeat split; try reflexivity; eauto.
    exists []. rewrite app_nil_r. reflexivity.
  - apply grow_refl.
Qed.

Ltac keeps_step :=
  first
    [ apply keeps_getTileImage
    | apply keeps_Result_DrawImage
    | apply keeps_grows_bind; [|intros ?]
    | apply keeps_for_each; [exact grow_refl|exact grow_trans|intros ?]
    | apply keeps_fold_each; [exact grow_refl|exact grow_trans|intros ? ?]
    | apply keeps_receiver
    | apply keeps_mret
    | apply keeps_fail
    | apply keeps_lift
    | apply keeps_index
    | match goal with |- keeps _ (if ?b then _ else _) => destruct b end ].

Lemma keeps_renderLayer (layer : Layer) : keeps only_draws_and_cache_grow (_renderLayer layer).
Proof. unfold _renderLayer, renderCell. repeat keeps_step. Qed.

Lemma keeps_renderOneObject (layer : ObjectGroup) (o : Object) :
  keeps only_draws_and_cache_grow (renderOneObject layer o).
Proof. unfold renderOneObject. repeat keeps_step. Qed.

Lemma keeps_renderObjectGroup (objectGroup : ObjectGroup) :
  keeps only_draws_and_cache_grow (_renderObjectGroup objectGroup).
Proof.
  unfold _renderObjectGroup. apply keeps_for_each;
    [exact grow_refl|exact grow_trans|intros o; apply keeps_renderOneObject].
Qed.

Lemma keeps_renderGroup (group : Group) : keeps only_draws_and_cache_grow (_renderGroup group).
Proof.
  unfold _renderGroup.
  repeat first [apply keeps_renderLayer | apply keeps_renderObjectGroup | keeps_step].
Qed.

(** X1.  No render method changes the map, the engine or the file system
    of the renderer, replaces or resizes the canvas, removes a draw call
    already made, removes a key of the tile cache or an event of the trace,
    whatever it returns. *)
Theorem rendering_only_adds (s s' : RState) (res : result unit) :
  (exists id, RenderLayer id s = (res, s')) \/
  (exists groupID layerID, RenderGroupLayer groupID layerID s = (res, s')) \/
  RenderVisibleLayers s = (res, s') \/
  (exists i, RenderObjectGroup i s = (res, s')) \/
  (exists groupID objectGroupID,
     RenderGroupObjectGroup groupID objectGroupID s = (res, s')) \/
  RenderVisibleObjectGroups s = (res, s') \/
  RenderVisibleLayersAndObjectGroups s = (res, s') \/
  (exists groupID, RenderGroup groupID s = (res, s')) \/
  RenderVisibleGroups s = (res, s') ->
  only_draws_and_cache_grow s s'.
Proof.
  assert (K1 : forall id, keeps only_draws_and_cache_grow (RenderLayer id)).
  { intros id. unfold RenderLayer.
    repeat first [apply keeps_renderLayer | keeps_step]. }
  assert (K2 : forall g l, keeps only_draws_and_cache_grow (RenderGroupLayer g l)).
  { intros g l. unfold RenderGroupLayer.
    repeat first [apply keeps_renderLayer | keeps_step]. }
  assert (K3 : keeps only_draws_and_cache_grow RenderVisibleLayers).
  { unfold RenderVisibleLayers. repeat first [apply K1 | keeps_step]. }
  assert (K4 : forall i, keeps only_draws_and_cache_grow (RenderObjectGroup i)).
  { intros i. unfold RenderObjectGroup.
    repeat first [apply keeps_renderObjectGroup | keeps_step]. }
  assert (K5 : forall g l, keeps only_draws_and_cache_grow (RenderGroupObjectGroup g l)).
  { intros g l. unfold RenderGroupObjectGroup.
    repeat first [apply keeps_renderObjectGroup | keeps_step]. }
  assert (K6 : keeps only_draws_and_cache_grow RenderVisibleObjectGroups).
  { unfold RenderVisibleObjectGroups. repeat first [apply K4 | keeps_step]. }
  assert (K7 : keeps only_draws_and_cache_grow RenderVisibleLayersAndObjectGroups).
  { unfold RenderVisibleLayersAndObjectGroups.
    apply keeps_grows_bind; [exact K3|intros _; exact K6]. }
  assert (K8 : forall g, keeps only_draws_and_cache_grow (RenderGroup g)).
  { intros g. unfold RenderGroup. repeat first [apply keeps_renderGroup | keeps_step]. }
  assert (K9 : keeps only_draws_and_cache_grow RenderVisibleGroups).
  { unfold RenderVisibleGroups. repeat first [apply keeps_renderGroup | keeps_step]. }
  intros [[id H]|[(g & l & H)|[H|[[i H]|[(g & l & H)|[H|[H|[[g H]|H]]]]]]]].
  - exact (K1 _ _ _ _ H).
  - exact (K2 _ _ _ _ _ H).
  - exact (K3 _ _ _ H).
  - exact (K4 _ _ _ _ H).
  - exact (K5 _ _ _ _ _ H).
  - exact (K6 _ _ _ H).
  - exact (K7 _ _ _ H).
  - exact (K8 _ _ _ _ H).
  - exact (K9 _ _ _ H).
Qed.

End RenderingFrame.

(** ** Properties of tile-image resolution *)

Section ResolutionProperties.
Context {FL : Float64} {IM : Imaging} {FI : Files} {TI : Tiled}.

(** X2.  Resolving a tile image never touches the canvas, the map, the
    engine or the file system of the renderer: whatever [getTileImage]
    returns, only the tile cache may have gained keys and the trace may have
    gained events. *)
Theorem getTileImage_leaves_canvas (tile : LayerTile) (s s' : RState)
    (res : result Image) :
  getTileImage tile s = (res, s') -> only_cache_grows s s'.
Proof.
  destruct s as [r tr], s' as [r' tr']. intros H.
  eapply getTileImage_outcome. exact H.
Qed.

(** X3.  One resolution opens at most one file, and a file that was opened
    is closed before the method returns, whether decoding worked or not:
    the events of a call are none, or the failed opening of one path, or the
    opening, decoding and closing of one path. *)
Theorem getTileImage_opens_one_file_and_closes_it (tile : LayerTile)
    (r r' : Renderer) (tr tr' : list io_event) (res : result Image) :
  getTileImage tile (r, tr) = (res, (r', tr')) ->
  tr' = tr \/
  exists f, let p := open_path (r_fs r) f in
    ((exists sf, open_file (r_fs r) f = Ok sf) /\
     tr' = tr ++ [EvOpen p; EvDecode p; EvClose p]) \/
    ((forall sf, open_file (r_fs r) f <> Ok sf) /\ tr' = tr ++ [EvOpen p]).
Proof.
  intros H. destruct (getTileImage_outcome _ _ _ _ _ _ H) as [_ [E|[f E]]];
    [left; exact E|right].
  exists f. cbv zeta. rewrite E. unfold attempt_events.
  destruct (open_file (r_fs r) f) as [sf|e|].
  - left. split; [eauto|reflexivity].
  - right. split; [intros sf; discriminate|reflexivity].
  - right. split; [intros sf; discriminate|reflexivity].
Qed.

(** A tile whose global ID is in the cache is resolved from the cache
    alone. *)
Lemma getTileImage_hit (tile : LayerTile) (timg : Image) (s : RState) :
  tileCache (fst s) !! u32_add (FirstGID (LT_Tileset tile)) (ID tile) = Some timg ->
  getTileImage tile s =
  (Ok (RotateTileImage (engine (fst s)) tile (NewImageFromImage timg)), s).
Proof.
  destruct s as [r tr]; cbn [fst]. intros H. unfold getTileImage. run_M.
  rewrite H. reflexivity.
Qed.

Lemma u32_add_comm (a b : Z) : u32_add a b = u32_add b a.
Proof. unfold u32_add. rewrite Z.add_comm. reflexivity. Qed.

(** X4.  After the first touch of a shared-image tileset every tile of the
    tileset whose index is below the tile count is resolved from the cache:
    the call returns the oriented copy of the slice at the rectangle of the
    tile and leaves the state unchanged, so no file is opened again.  For
    the tile of the first touch itself the second call returns the image the
    first call returned. *)
Theorem shared_tileset_served_from_cache (tile : LayerTile) (image : ImageRef)
    (s s' : RState) (img : Image) :
  let ts := LT_Tileset tile in
  Tileset_Image ts = Some image ->
  tileCache (fst s) !! u32_add (FirstGID ts) (ID tile) = None ->
  getTileImage tile s = (Ok img, s') ->
  getTileImage tile s' = (Ok img, s') /\
  exists decoded,
    load_succeeds (r_fs (fst s)) (tileset_file ts image) decoded /\
    forall tile' : LayerTile,
      LT_Tileset tile' = ts -> 0 <= ID tile' < uint32 (TileCount ts) ->
      getTileImage tile' s' =
      (Ok (RotateTileImage (engine (fst s)) tile'
             (NewImageFromImage
                (SubImage (NewImageFromImage decoded) (GetTileRect ts (ID tile'))))),
       s').
Proof.
  intros ts Himg Hmiss Hrun. destruct s as [r tr]. cbn [fst] in *.
  rewrite (getTileImage_miss _ _ _ _ Himg Hmiss) in Hrun.
  rewrite (getTileImageFromTileset_run _ _ _ _ Himg) in Hrun. cbv zeta in Hrun.
  destruct (open_file _ _) as [sf|e|] eqn:Hopen; try discriminate.
  destruct (image_Decode sf) as [dimg|e|] eqn:Hdec; try discriminate.
  set (eimg := NewImageFromImage dimg) in *.
  pose proof (precache_found tile eimg (tileCache r)) as Hfound.
  destruct (snd (precache tile eimg (tileCache r))) as [timg|] eqn:Hsnd;
    try discriminate.
  fold ts in Hfound.
  destruct (decide (0 <= ID tile < uint32 (TileCount ts))) as [Hid|Hid];
    [|discriminate].
  injection Hfound as ->. injection Hrun as <- <-.
  assert (Hall : forall tile' : LayerTile,
            LT_Tileset tile' = ts -> 0 <= ID tile' < uint32 (TileCount ts) ->
            getTileImage tile'
              (set_tileCache (fst (precache tile eimg (tileCache r))) r,
               tr ++ [EvOpen (open_path (r_fs r) (tileset_file ts image));
                      EvDecode (open_path (r_fs r) (tileset_file ts image));
                      EvClose (open_path (r_fs r) (tileset_file ts image))]) =
            (Ok (RotateTileImage (engine r) tile'
                   (NewImageFromImage (SubImage eimg (GetTileRect ts (ID tile'))))),
             (set_tileCache (fst (precache tile eimg (tileCache r))) r,
              tr ++ [EvOpen (open_path (r_fs r) (tileset_file ts image));
                     EvDecode (open_path (r_fs r) (tileset_file ts image));
                     EvClose (open_path (r_fs r) (tileset_file ts image))]))).
  { intros tile' Hts Hid'. apply getTileImage_hit. cbn [fst tileCache set_tileCache].
    rewrite Hts, u32_add_comm. apply lookup_precache. exact Hid'. }
  split.
  - apply Hall; [reflexivity|exact Hid].
  - exists dimg. split; [exists sf; split; assumption|]. exact Hall.
Qed.

(** X5.  A tile of a shared-image tileset whose index is not below the tile
    count: the image is loaded and the whole tileset is cached all the same,
    then the call fails with the tile-not-found error.  The global ID of the
    tile is still not in the cache afterwards, so every further call for the
    tile opens and decodes the file again. *)
Theorem shared_tileset_index_beyond_count (tile : LayerTile) (image : ImageRef)
    (decoded : Image) (r : Renderer) (tr : list io_event) :
  let ts := LT_Tileset tile in
  let p := open_path (r_fs r) (tileset_file ts image) in
  let loaded := set_tileCache (fst (precache tile (NewImageFromImage decoded) (tileCache r))) r in
  Tileset_Image ts = Some image ->
  tileCache r !! u32_add (FirstGID ts) (ID tile) = None ->
  load_succeeds (r_fs r) (tileset_file ts image) decoded ->
  in_uint32 (ID tile) -> ~ (ID tile < uint32 (TileCount ts)) ->
  getTileImage tile (r, tr) =
    (Err (ErrTileImageNotFound (ID tile)),
     (loaded, tr ++ [EvOpen p; EvDecode p; EvClose p])) /\
  dom (tileCache loaded) = dom (tileCache r) ∪ list_to_set (tileset_gids ts) /\
  tileCache loaded !! u32_add (FirstGID ts) (ID tile) = None /\
  forall tr1,
    exists again,
      getTileImage tile (loaded, tr1) =
      (Err (ErrTileImageNotFound (ID tile)),
       (again, tr1 ++ [EvOpen p; EvDecode p; EvClose p])).
Proof.
  intros ts p loaded Himg Hmiss (sf & Hopen & Hdec) Hu Hid.
  assert (Hnone : forall c, c !! u32_add (FirstGID ts) (ID tile) = None ->
            fst (precache tile (NewImageFromImage decoded) c)
              !! u32_add (FirstGID ts) (ID tile) = None).
  { intros c Hc. unfold precache. rewrite precache_fold. cbn [fst].
    rewrite lookup_precache_fold_other; [exact Hc|].
    intros j Hj Heq. apply elem_of_seqZ in Hj.
    pose proof (uint32_range (TileCount (LT_Tileset tile))) as Hn.
    fold ts in Heq. rewrite (u32_add_comm (FirstGID ts)) in Heq.
    apply u32_add_inj in Heq; [|lia|exact Hu]. fold ts in Hj. lia. }
  assert (Hrun : forall r0 tr0,
            r_fs r0 = r_fs r ->
            tileCache r0 !! u32_add (FirstGID ts) (ID tile) = None ->
            getTileImage tile (r0, tr0) =
            (Err (ErrTileImageNotFound (ID tile)),
             (set_tileCache
                (fst (precache tile (NewImageFromImage decoded) (tileCache r0))) r0,
              tr0 ++ [EvOpen p; EvDecode p; EvClose p]))).
  { intros r0 tr0 Hfs Hm. rewrite (getTileImage_miss _ _ _ _ Himg Hm).
    rewrite (getTileImageFromTileset_run _ _ _ _ Himg). cbv zeta.
    fold ts. rewrite Hfs, Hopen, Hdec.
    rewrite precache_found. fold ts.
    destruct (decide (0 <= ID tile < uint32 (TileCount ts))) as [H|H]; [lia|].
    reflexivity. }
  split; [apply Hrun; [reflexivity|exact Hmiss]|].
  split; [apply dom_precache|].
  split; [apply Hnone; exact Hmiss|].
  intros tr1. eexists. apply Hrun; [reflexivity|].
  apply Hnone. exact Hmiss.
Qed.

(** X6.  A tile of a per-tile-image tileset, not yet in the cache, that is
    resolved with success: the image file of that tile alone is loaded, the
    cache gains the one key of the tile (its global ID) bound to the copy of
    the decoded image, every other key keeps its image, and the result is
    the oriented copy. *)
Theorem per_tile_image_cached_alone (tile : LayerTile) (s s' : RState) (img : Image) :
  let ts := LT_Tileset tile in
  let key := u32_add (FirstGID ts) (ID tile) in
  Tileset_Image ts = None ->
  tileCache (fst s) !! key = None ->
  getTileImage tile s = (Ok img, s') ->
  exists tilesetTile image decoded,
    GetTilesetTile ts (ID tile) = Ok tilesetTile /\
    TilesetTile_Image tilesetTile = Some image /\
    load_succeeds (r_fs (fst s)) (GetFileFullPath ts (Source image)) decoded /\
    img = RotateTileImage (engine (fst s)) tile (NewImageFromImage decoded) /\
    tileCache (fst s') = <[key := NewImageFromImage decoded]> (tileCache (fst s)) /\
    dom (tileCache (fst s')) = {[key]} ∪ dom (tileCache (fst s)) /\
    size (tileCache (fst s')) = S (size (tileCache (fst s))) /\
    let p := open_path (r_fs (fst s)) (GetFileFullPath ts (Source image)) in
    snd s' = snd s ++ [EvOpen p; EvDecode p; EvClose p].
Proof.
  intros ts key Himg Hmiss. destruct s as [r tr]. cbn [fst snd] in *.
  unfold getTileImage. run_M. fold ts key. rewrite Hmiss, Himg.
  rewrite getTileImageFromTile_run. fold ts key.
  destruct (GetTilesetTile ts (ID tile)) as [tilesetTile|e|]; try discriminate.
  destruct (TilesetTile_Image tilesetTile) as [image|] eqn:Hti; try discriminate.
  cbv zeta.
  destruct (open_file _ _) as [sf|e|] eqn:Hopen; try discriminate.
  destruct (image_Decode sf) as [dimg|e|] eqn:Hdec; try discriminate.
  intros H. injection H as <- <-.
  exists tilesetTile, image, dimg. cbn [fst snd tileCache set_tileCache].
  repeat split; try reflexivity; try assumption.
  - exists sf. split; assumption.
  - apply dom_insert_L.
  - apply map_size_insert_None. exact Hmiss.
Qed.

(** X7.  On the per-tile path a tile that the tileset does not have is
    reported with the error of the lookup, before any file is opened: the
    state, trace included, is unchanged. *)
Theorem per_tile_lookup_error (tile : LayerTile) (e : error) (s : RState) :
  let ts := LT_Tileset tile in
  Tileset_Image ts = None ->
  tileCache (fst s) !! u32_add (FirstGID ts) (ID tile) = None ->
  GetTilesetTile ts (ID tile) = Err e ->
  getTileImage tile s = (Err e, s).
Proof.
  intros ts Himg Hmiss Herr. destruct s as [r tr]. cbn [fst] in *.
  unfold getTileImage. run_M. fold ts. rewrite Hmiss, Himg.
  rewrite getTileImageFromTile_run. fold ts. rewrite Herr. reflexivity.
Qed.

End ResolutionProperties.

(** ** Indexed and visible rendering *)

Section Traversal.
Context {FL : Float64} {IM : Imaging} {FI : Files} {TI : Tiled}.

Lemma index_negative {A} (l : list A) (i : Z) (s : RState) :
  i < 0 -> index l i s = (Panic, s).
Proof.
  intros H. unfold index. destruct (i <? 0) eqn:E; [reflexivity|].
  apply Z.ltb_ge in E. lia.
Qed.

Lemma index_valid {A} (l : list A) (i : Z) (a : A) (s : RState) :
  0 <= i -> l !! Z.to_nat i = Some a -> index l i s = (Ok a, s).
Proof.
  intros H Ha. unfold index. destruct (i <? 0) eqn:E.
  - apply Z.ltb_lt in E. lia.
  - rewrite Ha. reflexivity.
Qed.

Lemma geb_len_false {A} (l : list A) (i : Z) : i < len l -> (i >=? len l) = false.
Proof.
  intros H. destruct (i >=? len l) eqn:E; [|reflexivity].
  apply Z.geb_le in E. lia.
Qed.

Lemma len_nonneg {A} (l : list A) : 0 <= len l.
Proof. unfold len. lia. Qed.

Lemma lookup_len {A} (l : list A) (i : Z) (a : A) :
  0 <= i -> l !! Z.to_nat i = Some a -> i < len l.
Proof. intros H Ha. apply lookup_lt_Some in Ha. unfold len. lia. Qed.

(** X8.  The bounds checks of the indexed render methods look at the upper
    end only: with a negative index each of them runs into the slice access
    and panics, leaving the state as it was. *)
Theorem negative_index_panics (s : RState) (id : Z) :
  id < 0 ->
  RenderLayer id s = (Panic, s) /\
  RenderGroup id s = (Panic, s) /\
  RenderObjectGroup id s = (Panic, s) /\
  (forall inner, RenderGroupLayer id inner s = (Panic, s) /\
                 RenderGroupObjectGroup id inner s = (Panic, s)) /\
  (forall g group, 0 <= g -> Groups (r_m (fst s)) !! Z.to_nat g = Some group ->
     RenderGroupLayer g id s = (Panic, s) /\
     RenderGroupObjectGroup g id s = (Panic, s)).
Proof.
  intros Hneg. destruct s as [r tr]; cbn [fst].
  assert (Hlen : forall (A : Type) (l : list A), (id >=? len l) = false).
  { intros A l. apply geb_len_false. pose proof (len_nonneg l). lia. }
  assert (Hidx : forall (A : Type) (l : list A) (s0 : RState),
            index l id s0 = (Panic, s0)).
  { intros A l s0. apply index_negative. exact Hneg. }
  repeat split.
  - unfold RenderLayer. run_M. rewrite Hlen.
    rewrite Hidx. reflexivity.
  - unfold RenderGroup. run_M. rewrite Hlen.
    rewrite Hidx. reflexivity.
  - unfold RenderObjectGroup. run_M. rewrite Hlen.
    rewrite Hidx. reflexivity.
  - unfold RenderGroupLayer. run_M. rewrite Hlen.
    rewrite Hidx. reflexivity.
  - unfold RenderGroupObjectGroup. run_M. rewrite Hlen.
    rewrite Hidx. reflexivity.
  - unfold RenderGroupLayer. run_M.
    rewrite (geb_len_false _ _ (lookup_len _ _ _ H H0)).
    rewrite (index_valid _ _ _ _ H H0).
    rewrite Hlen.
    rewrite Hidx. reflexivity.
  - unfold RenderGroupObjectGroup. run_M.
    rewrite (geb_len_false _ _ (lookup_len _ _ _ H H0)).
    rewrite (index_valid _ _ _ _ H H0).
    rewrite Hlen.
    rewrite Hidx. reflexivity.
Qed.

Lemma for_each_filter {A} (keep : A -> bool) (body : A -> M RState unit) (l : list A) :
  for_each (fun a => if negb (keep a) then mret tt else body a) l =
  for_each body (List.filter keep l).
Proof.
  induction l as [|a l IH]; [reflexivity|]. cbn [for_each List.filter].
  destruct (keep a); cbn [negb].
  - cbn [for_each]. rewrite IH. reflexivity.
  - rewrite IH. reflexivity.
Qed.

Lemma len_cons {A} (a : A) (l : list A) : len (a :: l) = Z.succ (len l).
Proof. unfold len. cbn [length]. lia. Qed.

Lemma len_snoc {A} (a : A) (l : list A) : len (l ++ [a]) = Z.succ (len l).
Proof. unfold len. rewrite length_app. cbn [length]. lia. Qed.

(** A loop over the indices of a slice that skips the elements [keep]
    rejects and calls an indexed method on the others is the loop over the
    kept elements, when the indexed method does on a valid index what [body]
    does on the element. *)
Lemma indexed_loop {A} (all : list A) (keep : A -> bool)
    (indexed : Z -> M RState unit) (body : A -> M RState unit) (m : Map) :
  (forall a, keeps only_draws_and_cache_grow (body a)) ->
  (forall s i a, r_m (fst s) = m -> 0 <= i -> all !! Z.to_nat i = Some a ->
                 indexed i s = body a s) ->
  forall l pre s, all = pre ++ l -> r_m (fst s) = m ->
    for_each (fun i => a ← index all i;
                       if negb (keep a) then mret tt else indexed i)
             (seqZ (len pre) (len l)) s =
    for_each body (List.filter keep l) s.
Proof.
  intros Hkeeps Hindexed. induction l as [|a l IH]; intros pre s Hall Hm.
  - reflexivity.
  - rewrite seqZ_cons by (rewrite len_cons; pose proof (len_nonneg l); lia).
    rewrite len_cons, Z.pred_succ, <- (len_snoc a pre).
    assert (Ha : all !! Z.to_nat (len pre) = Some a).
    { unfold len. rewrite Nat2Z.id, Hall. apply list_lookup_middle. reflexivity. }
    assert (Hall' : all = (pre ++ [a]) ++ l) by (rewrite <- app_assoc; exact Hall).
    cbn [for_each List.filter]. cbv [mbind M_bind bind].
    rewrite (index_valid _ _ _ _ (len_nonneg pre) Ha).
    destruct (keep a); cbn [negb].
    + rewrite (Hindexed s _ a Hm (len_nonneg pre) Ha). cbn [for_each]. unfold bind.
      destruct (body a s) as [[u|e|] s1] eqn:E; try reflexivity.
      apply IH; [exact Hall'|].
      destruct (Hkeeps a _ _ _ E) as (Hm1 & _). congruence.
    + cbv [mret M_ret ret]. apply IH; assumption.
Qed.

Lemma RenderLayer_valid (id : Z) (layer : Layer) (s : RState) :
  0 <= id -> Layers (r_m (fst s)) !! Z.to_nat id = Some layer ->
  RenderLayer id s = _renderLayer layer s.
Proof.
  intros H0 Hl. destruct s as [r tr]; cbn [fst] in *. unfold RenderLayer. run_M.
  rewrite (geb_len_false _ _ (lookup_len _ _ _ H0 Hl)).
  rewrite (index_valid _ _ _ _ H0 Hl). reflexivity.
Qed.

Lemma RenderObjectGroup_valid (i : Z) (layer : ObjectGroup) (s : RState) :
  0 <= i -> ObjectGroups (r_m (fst s)) !! Z.to_nat i = Some layer ->
  RenderObjectGroup i s = _renderObjectGroup layer s.
Proof.
  intros H0 Hl. destruct s as [r tr]; cbn [fst] in *. unfold RenderObjectGroup. run_M.
  rewrite (geb_len_false _ _ (lookup_len _ _ _ H0 Hl)).
  rewrite (index_valid _ _ _ _ H0 Hl). reflexivity.
Qed.

Lemma RenderVisibleLayers_run (s : RState) :
  RenderVisibleLayers s =
  for_each _renderLayer (visible_layers (Layers (r_m (fst s)))) s.
Proof.
  unfold RenderVisibleLayers, visible_layers. cbv [mbind M_bind bind receiver].
  destruct s as [r tr]; cbn [fst].
  apply (indexed_loop (Layers (r_m r)) Layer_Visible RenderLayer _renderLayer (r_m r)
           keeps_renderLayer) with (pre := []).
  - intros s i a Hm. rewrite <- Hm. apply RenderLayer_valid.
  - reflexivity.
  - reflexivity.
Qed.

Lemma RenderVisibleObjectGroups_run (s : RState) :
  RenderVisibleObjectGroups s =
  for_each _renderObjectGroup (visible_object_groups (ObjectGroups (r_m (fst s)))) s.
Proof.
  unfold RenderVisibleObjectGroups, visible_object_groups. cbv [mbind M_bind bind receiver].
  destruct s as [r tr]; cbn [fst].
  apply (indexed_loop (ObjectGroups (r_m r)) ObjectGroup_Visible RenderObjectGroup
           _renderObjectGroup (r_m r) keeps_renderObjectGroup) with (pre := []).
  - intros s i a Hm. rewrite <- Hm. apply RenderObjectGroup_valid.
  - reflexivity.
  - reflexivity.
Qed.

(** X9.  [RenderVisibleLayers] renders the visible layers of the map, in
    map order, and nothing else; [RenderVisibleObjectGroups] does the same
    for the object groups; [RenderVisibleLayersAndObjectGroups] renders all
    visible layers first and the visible object groups after them, and does
    not reach the object groups when a layer fails. *)
Theorem visible_layers_then_object_groups (s : RState) :
  let m := r_m (fst s) in
  RenderVisibleLayers s = for_each _renderLayer (visible_layers (Layers m)) s /\
  RenderVisibleObjectGroups s =
    for_each _renderObjectGroup (visible_object_groups (ObjectGroups m)) s /\
  RenderVisibleLayersAndObjectGroups s =
    match for_each _renderLayer (visible_layers (Layers m)) s with
    | (Ok _, s1) =>
        for_each _renderObjectGroup (visible_object_groups (ObjectGroups m)) s1
    | failed => failed
    end.
Proof.
  intros m. split; [apply RenderVisibleLayers_run|].
  split; [apply RenderVisibleObjectGroups_run|].
  unfold RenderVisibleLayersAndObjectGroups. cbv [mbind M_bind bind].
  rewrite RenderVisibleLayers_run. fold m.
  destruct (for_each _renderLayer (visible_layers (Layers m)) s) as [[u|e|] s1] eqn:E;
    try reflexivity.
  rewrite RenderVisibleObjectGroups_run.
  assert (Hm : r_m (fst s1) = m).
  { eapply (keeps_for_each only_draws_and_cache_grow _renderLayer);
      [exact grow_refl|exact grow_trans|exact keeps_renderLayer|exact E]. }
  rewrite Hm. reflexivity.
Qed.

Lemma renderGroup_run (group : Group) (s : RState) :
  _renderGroup group s =
    match for_each _renderLayer (visible_layers (Group_Layers group)) s with
    | (Ok _, s1) =>
        for_each _renderObjectGroup
          (visible_object_groups (Group_ObjectGroups group)) s1
    | failed => failed
    end.
Proof.
  unfold _renderGroup. cbv [mbind M_bind bind].
  rewrite (for_each_filter Layer_Visible _renderLayer).
  rewrite (for_each_filter ObjectGroup_Visible _renderObjectGroup).
  unfold visible_layers, visible_object_groups.
  destruct (for_each _renderLayer (List.filter Layer_Visible (Group_Layers group)) s)
    as [[u|e|] s1]; reflexivity.
Qed.

(** X10.  A group is rendered as its visible layers in order followed by
    its visible object groups in order, so every layer of a group lies under
    every object group of that group; [RenderVisibleGroups] renders the
    visible groups of the map in map order. *)
Theorem groups_layers_before_object_groups (group : Group) (s : RState) :
  _renderGroup group s =
    match for_each _renderLayer (visible_layers (Group_Layers group)) s with
    | (Ok _, s1) =>
        for_each _renderObjectGroup
          (visible_object_groups (Group_ObjectGroups group)) s1
    | failed => failed
    end /\
  RenderVisibleGroups s =
    for_each _renderGroup (visible_groups (Groups (r_m (fst s)))) s.
Proof.
  split.
  - apply renderGroup_run.
  - unfold RenderVisibleGroups. cbv [mbind M_bind bind receiver].
    rewrite (for_each_filter Group_Visible _renderGroup). reflexivity.
Qed.

(** With indices in range each indexed render method renders exactly
    the element it names: the layer, group or object group at that index,
    and for the two-index methods the layer or object group at the inner
    index of the group at the outer index. *)
Lemma valid_index_renders_element (s : RState) :
  let m := r_m (fst s) in
  (forall id layer, 0 <= id -> Layers m !! Z.to_nat id = Some layer ->
     RenderLayer id s = _renderLayer layer s) /\
  (forall i og, 0 <= i -> ObjectGroups m !! Z.to_nat i = Some og ->
     RenderObjectGroup i s = _renderObjectGroup og s) /\
  (forall g group, 0 <= g -> Groups m !! Z.to_nat g = Some group ->
     RenderGroup g s = _renderGroup group s /\
     (forall l layer, 0 <= l -> Group_Layers group !! Z.to_nat l = Some layer ->
        RenderGroupLayer g l s = _renderLayer layer s) /\
     (forall l og, 0 <= l -> Group_ObjectGroups group !! Z.to_nat l = Some og ->
        RenderGroupObjectGroup g l s = _renderObjectGroup og s)).
Proof.
  intros m. split; [intros; apply RenderLayer_valid; assumption|].
  split; [intros; apply RenderObjectGroup_valid; assumption|].
  intros g group H0 Hg. subst m. destruct s as [r tr]; cbn [fst] in *.
  pose proof (geb_len_false _ _ (lookup_len _ _ _ H0 Hg)) as Hlen.
  repeat split.
  - unfold RenderGroup. run_M. rewrite Hlen, (index_valid _ _ _ _ H0 Hg). reflexivity.
  - intros l layer Hl0 Hl. unfold RenderGroupLayer. run_M.
    rewrite Hlen, (index_valid _ _ _ _ H0 Hg).
    rewrite (geb_len_false _ _ (lookup_len _ _ _ Hl0 Hl)).
    rewrite (index_valid _ _ _ _ Hl0 Hl). reflexivity.
  - intros l og Hl0 Hl. unfold RenderGroupObjectGroup. run_M.
    rewrite Hlen, (index_valid _ _ _ _ H0 Hg).
    rewrite (geb_len_false _ _ (lookup_len _ _ _ Hl0 Hl)).
    rewrite (index_valid _ _ _ _ Hl0 Hl). reflexivity.
Qed.

End Traversal.

(** ** Layers, cell by cell *)

Section LayerCells.
Context {FL : Float64} {IM : Imaging} {FI : Files} {TI : Tiled}.

Lemma supported_order_eqb (m : Map) :
  supported_order m <->
  String.eqb (RenderOrder m) "" || String.eqb (RenderOrder m) "right-down" = true.
Proof.
  unfold supported_order. rewrite orb_true_iff, !String.eqb_eq. reflexivity.
Qed.

Lemma renderLayer_unsupported (layer : Layer) (s : RState) :
  ~ supported_order (r_m (fst s)) ->
  _renderLayer layer s = (Err ErrUnsupportedRenderOrder, s).
Proof.
  intros H. destruct s as [r tr]; cbn [fst] in *. unfold _renderLayer. run_M.
  destruct (String.eqb (RenderOrder (r_m r)) "" ||
            String.eqb (RenderOrder (r_m r)) "right-down") eqn:E; [|reflexivity].
  exfalso. apply H. apply supported_order_eqb. exact E.
Qed.

(** X11.  With a render order other than the default and "right-down" no
    layer is drawn: every layer render fails with
    [ErrUnsupportedRenderOrder] and changes nothing.  [RenderVisibleLayers]
    therefore fails exactly when the map has a visible layer, and a group
    fails exactly when it has one. *)
Theorem unsupported_render_order (s : RState) :
  ~ supported_order (r_m (fst s)) ->
  (forall layer, _renderLayer layer s = (Err ErrUnsupportedRenderOrder, s)) /\
  (forall id layer, 0 <= id -> Layers (r_m (fst s)) !! Z.to_nat id = Some layer ->
     RenderLayer id s = (Err ErrUnsupportedRenderOrder, s)) /\
  RenderVisibleLayers s =
    (if existsb Layer_Visible (Layers (r_m (fst s)))
     then Err ErrUnsupportedRenderOrder else Ok tt, s) /\
  (forall group, existsb Layer_Visible (Group_Layers group) = true ->
     _renderGroup group s = (Err ErrUnsupportedRenderOrder, s)).
Proof.
  intros H.
  assert (Hvis : forall l : list Layer,
            for_each _renderLayer (visible_layers l) s =
            (if existsb Layer_Visible l then Err ErrUnsupportedRenderOrder else Ok tt, s)).
  { induction l as [|a l IH]; [reflexivity|].
    unfold visible_layers in *. cbn [List.filter existsb].
    destruct (Layer_Visible a); cbn [orb]; [|exact IH].
    cbn [for_each]. unfold bind. rewrite (renderLayer_unsupported a s H). reflexivity. }
  split; [intros layer; apply renderLayer_unsupported; exact H|].
  split.
  { intros id layer H0 Hl. rewrite (RenderLayer_valid _ _ _ H0 Hl).
    apply renderLayer_unsupported. exact H. }
  split.
  { rewrite RenderVisibleLayers_run. apply Hvis. }
  intros group Hex.
  rewrite renderGroup_run, Hvis, Hex. reflexivity.
Qed.

Lemma renderCell_drawCell (layer : Layer) (y i x : Z) (t : LayerTile) (s : RState) :
  0 <= i -> Tiles layer !! Z.to_nat i = Some t ->
  renderCell layer y i x s =
  match drawCell layer (x, y, t) s with
  | (Ok _, s') => (Ok (i + 1), s')
  | (Err e, s') => (Err e, s')
  | (Panic, s') => (Panic, s')
  end.
Proof.
  intros H0 Ht. unfold renderCell, drawCell. cbv [mbind M_bind bind].
  rewrite (index_valid _ _ _ _ H0 Ht).
  destruct (IsNil t); [reflexivity|].
  destruct (getTileImage t s) as [[img|e|] s1]; reflexivity.
Qed.

Lemma row_cells (layer : Layer) (width y : Z) (k : nat) :
  forall (x0 : Z) (s : RState),
    0 <= y * width + x0 ->
    y * width + x0 + Z.of_nat k <= len (Tiles layer) ->
    fold_each (renderCell layer y) (seqZ x0 (Z.of_nat k)) (y * width + x0) s =
    match for_each (drawCell layer)
            (List.flat_map (cell_at width (Tiles layer) y) (seqZ x0 (Z.of_nat k))) s with
    | (Ok _, s') => (Ok (y * width + x0 + Z.of_nat k), s')
    | (Err e, s') => (Err e, s')
    | (Panic, s') => (Panic, s')
    end.
Proof.
  induction k as [|k IH]; intros x0 s H0 Hlen.
  - cbn. rewrite Z.add_0_r. reflexivity.
  - rewrite Nat2Z.inj_succ in *. rewrite seqZ_cons by lia. rewrite Z.pred_succ.
    cbn [List.flat_map fold_each].
    destruct (Tiles layer !! Z.to_nat (y * width + x0)) as [t|] eqn:Ht.
    2:{ apply lookup_ge_None in Ht. unfold len in Hlen. lia. }
    unfold cell_at at 1. rewrite Ht. cbn [app for_each]. unfold bind.
    rewrite (renderCell_drawCell layer y _ x0 t s H0 Ht).
    destruct (drawCell layer (x0, y, t) s) as [[u|e|] s1]; try reflexivity.
    replace (y * width + x0 + 1) with (y * width + Z.succ x0) by lia.
    rewrite IH by lia.
    replace (y * width + Z.succ x0 + Z.of_nat k)
      with (y * width + x0 + Z.succ (Z.of_nat k)) by lia.
    reflexivity.
Qed.

Lemma rows_cells (layer : Layer) (width : Z) (h : nat) :
  forall (y0 : Z) (s : RState),
    0 <= width -> 0 <= y0 ->
    (y0 + Z.of_nat h) * width <= len (Tiles layer) ->
    fold_each (fun i y => fold_each (renderCell layer y) (seqZ 0 width) i)
              (seqZ y0 (Z.of_nat h)) (y0 * width) s =
    match for_each (drawCell layer)
            (List.flat_map
               (fun y => List.flat_map (cell_at width (Tiles layer) y) (seqZ 0 width))
               (seqZ y0 (Z.of_nat h))) s with
    | (Ok _, s') => (Ok ((y0 + Z.of_nat h) * width), s')
    | (Err e, s') => (Err e, s')
    | (Panic, s') => (Panic, s')
    end.
Proof.
  induction h as [|h IH]; intros y0 s Hw Hy Hlen.
  - cbn. rewrite Z.add_0_r. reflexivity.
  - rewrite Nat2Z.inj_succ in *. rewrite (seqZ_cons y0) by lia. rewrite Z.pred_succ.
    cbn [List.flat_map fold_each]. rewrite for_each_app. unfold bind.
    pose proof (row_cells layer width y0 (Z.to_nat width) 0 s) as Hrow.
    rewrite Z2Nat.id, !Z.add_0_r in Hrow by exact Hw.
    rewrite Hrow by nia.
    destruct (for_each (drawCell layer)
                (List.flat_map (cell_at width (Tiles layer) y0) (seqZ 0 width)) s)
      as [[u|e|] s1]; try reflexivity.
    replace (y0 * width + width) with (Z.succ y0 * width) by lia.
    rewrite IH by nia.
    replace ((Z.succ y0 + Z.of_nat h) * width)
      with ((y0 + Z.succ (Z.of_nat h)) * width) by lia.
    reflexivity.
Qed.

Lemma renderLayer_cells (layer : Layer) (s : RState) :
  supported_order (r_m (fst s)) ->
  0 <= Map_Width (r_m (fst s)) -> 0 <= Map_Height (r_m (fst s)) ->
  Map_Height (r_m (fst s)) * Map_Width (r_m (fst s)) <= len (Tiles layer) ->
  _renderLayer layer s =
  for_each (drawCell layer)
    (layer_cells (Map_Width (r_m (fst s))) (Map_Height (r_m (fst s))) (Tiles layer)) s.
Proof.
  intros Hsup Hw Hh Hlen. destruct s as [r tr]; cbn [fst] in *.
  unfold _renderLayer. cbv [mbind M_bind bind receiver fst].
  apply supported_order_eqb in Hsup. rewrite Hsup.
  pose proof (rows_cells layer (Map_Width (r_m r)) (Z.to_nat (Map_Height (r_m r)))
                0 (r, tr) Hw (Z.le_refl 0)) as Hrows.
  rewrite Z2Nat.id, Z.mul_0_l, Z.add_0_l in Hrows by exact Hh.
  rewrite Hrows by exact Hlen. unfold layer_cells.
  destruct (for_each (drawCell layer) _ (r, tr)) as [[u|e|] s1]; try reflexivity.
  destruct u. reflexivity.
Qed.

(** X12.  A layer is rendered cell by cell, row after row and each row from
    left to right: the cell [(x, y)] takes the tile at index
    [y * Width + x] of the tile slice, an empty (nil) tile is skipped, and
    any other tile is resolved and drawn with the transform of its cell and
    the opacity of the layer.  This needs the slice to hold a tile for every
    cell of the grid. *)
Theorem renderLayer_cell_by_cell (layer : Layer) (s : RState) :
  let m := r_m (fst s) in
  supported_order m ->
  0 <= Map_Width m -> 0 <= Map_Height m ->
  Map_Height m * Map_Width m <= len (Tiles layer) ->
  _renderLayer layer s =
  for_each (drawCell layer) (layer_cells (Map_Width m) (Map_Height m) (Tiles layer)) s.
Proof.
  intros m. apply renderLayer_cells.
Qed.

End LayerCells.

(** ** Layers: tile slices that are too short, or empty *)

Section LayerEdges.
Context {FL : Float64} {IM : Imaging} {FI : Files} {TI : Tiled}.

Lemma renderCell_ok (layer : Layer) (y i x i' : Z) (s s' : RState) :
  0 <= i -> renderCell layer y i x s = (Ok i', s') ->
  i' = i + 1 /\ i < len (Tiles layer).
Proof.
  intros H0 Hrun.
  destruct (Tiles layer !! Z.to_nat i) as [t|] eqn:Ht.
  - rewrite (renderCell_drawCell layer y i x t s H0 Ht) in Hrun.
    destruct (drawCell layer (x, y, t) s) as [[u|e|] s1]; try discriminate.
    injection Hrun as <- _. split; [reflexivity|]. eapply lookup_len; eassumption.
  - unfold renderCell, index in Hrun. cbv [mbind M_bind bind] in Hrun.
    destruct (i <? 0); [discriminate|]. rewrite Ht in Hrun. discriminate.
Qed.

Lemma row_ok (layer : Layer) (y : Z) (k : nat) :
  forall (x0 i i' : Z) (s s' : RState),
    0 <= i ->
    fold_each (renderCell layer y) (seqZ x0 (Z.of_nat k)) i s = (Ok i', s') ->
    i' = i + Z.of_nat k /\ (k = 0%nat \/ i + Z.of_nat k <= len (Tiles layer)).
Proof.
  induction k as [|k IH]; intros x0 i i' s s' H0 Hrun.
  - cbn in Hrun. injection Hrun as <- _. split; [lia|left; reflexivity].
  - rewrite Nat2Z.inj_succ in *. rewrite seqZ_cons in Hrun by lia.
    rewrite Z.pred_succ in Hrun. cbn [fold_each] in Hrun. unfold bind in Hrun.
    destruct (renderCell layer y i x0 s) as [[i1|e|] s1] eqn:E; try discriminate.
    destruct (renderCell_ok _ _ _ _ _ _ _ H0 E) as [-> Hlt].
    apply IH in Hrun; [|lia]. destruct Hrun as [-> Hk].
    split; [lia|right]. destruct Hk as [->|Hk]; cbn; lia.
Qed.

Lemma rows_ok (layer : Layer) (width : Z) (h : nat) :
  forall (y0 i i' : Z) (s s' : RState),
    0 <= i -> 0 <= width ->
    fold_each (fun i y => fold_each (renderCell layer y) (seqZ 0 width) i)
              (seqZ y0 (Z.of_nat h)) i s = (Ok i', s') ->
    i' = i + Z.of_nat h * width /\
    (h = 0%nat \/ width = 0 \/ i + Z.of_nat h * width <= len (Tiles layer)).
Proof.
  induction h as [|h IH]; intros y0 i i' s s' H0 Hw Hrun.
  - cbn in Hrun. injection Hrun as <- _. split; [lia|left; reflexivity].
  - rewrite Nat2Z.inj_succ in *. rewrite (seqZ_cons y0) in Hrun by lia.
    rewrite Z.pred_succ in Hrun. cbn [fold_each] in Hrun. unfold bind in Hrun.
    destruct (fold_each (renderCell layer y0) (seqZ 0 width) i s)
      as [[i1|e|] s1] eqn:E; try discriminate.
    rewrite <- (Z2Nat.id width Hw) in E at 1.
    destruct (row_ok _ _ _ _ _ _ _ _ H0 E) as [-> Hrow].
    rewrite Z2Nat.id in * by exact Hw.
    apply IH in Hrun; [|lia|exact Hw]. destruct Hrun as [-> Hrest].
    split; [lia|]. right.
    destruct (Z.eq_dec width 0) as [Hz|Hnz]; [left; exact Hz|right].
    destruct Hrest as [->|[Hz|Hrest]]; [|contradiction|lia].
    destruct Hrow as [Hz|Hrow]; [|cbn; lia].
    exfalso. apply Hnz. lia.
Qed.

(** X13.  A layer whose tile slice holds fewer tiles than the grid has
    cells is never rendered to the end: with a non-empty grid the method
    does not return nil; it returns an error of an earlier tile or runs
    past the end of the slice and panics. *)
Theorem short_layer_never_rendered (layer : Layer) (s s' : RState)
    (res : result unit) :
  let m := r_m (fst s) in
  0 < Map_Width m -> 0 < Map_Height m ->
  len (Tiles layer) < Map_Height m * Map_Width m ->
  _renderLayer layer s = (res, s') ->
  res <> Ok tt.
Proof.
  intros m Hw Hh Hshort Hrun Hok. subst m res.
  destruct s as [r tr]; cbn [fst] in *.
  unfold _renderLayer in Hrun. cbv [mbind M_bind bind receiver fst] in Hrun.
  destruct (String.eqb (RenderOrder (r_m r)) "" ||
            String.eqb (RenderOrder (r_m r)) "right-down"); [|discriminate].
  destruct (fold_each
              (fun i y => fold_each (renderCell layer y) (seqZ 0 (Map_Width (r_m r))) i)
              (seqZ 0 (Map_Height (r_m r))) 0 (r, tr)) as [[i|e|] s1] eqn:E;
    try discriminate.
  rewrite <- (Z2Nat.id (Map_Height (r_m r))) in E by lia.
  apply rows_ok in E; [|lia|lia]. destruct E as [_ Hlen].
  rewrite Z2Nat.id in Hlen by lia.
  destruct Hlen as [Hz|[Hz|Hlen]]; lia.
Qed.

Lemma for_each_noop {A} (f : A -> M RState unit) (l : list A) (s : RState) :
  (forall a, In a l -> f a s = (Ok tt, s)) -> for_each f l s = (Ok tt, s).
Proof.
  induction l as [|a l IH]; intros H; [reflexivity|].
  cbn [for_each]. unfold bind. rewrite (H a) by (left; reflexivity).
  apply IH. intros b Hb. apply H. right. exact Hb.
Qed.

Lemma layer_cells_tile (width height : Z) (tiles : list LayerTile)
    (x y : Z) (t : LayerTile) :
  In (x, y, t) (layer_cells width height tiles) ->
  In t tiles /\ 0 <= x < width /\ 0 <= y < height /\
  tiles !! Z.to_nat (y * width + x) = Some t.
Proof.
  unfold layer_cells. rewrite in_flat_map. intros (y' & Hy & Hin).
  rewrite in_flat_map in Hin. destruct Hin as (x' & Hx & Hin).
  unfold cell_at in Hin.
  destruct (tiles !! Z.to_nat (y' * width + x')) as [t'|] eqn:Ht; [|contradiction].
  destruct Hin as [Heq|[]]. injection Heq as -> -> ->.
  apply list_elem_of_In, elem_of_seqZ in Hx, Hy.
  repeat split; try lia.
  - apply list_elem_of_In. eapply list_elem_of_lookup_2. exact Ht.
  - exact Ht.
Qed.

(** X14.  A layer of empty cells only (every tile nil) is rendered without
    a draw call, without a file event and without a change of the cache:
    the method returns nil and the state is as before. *)
Theorem empty_layer_draws_nothing (layer : Layer) (s : RState) :
  let m := r_m (fst s) in
  supported_order m ->
  0 <= Map_Width m -> 0 <= Map_Height m ->
  Map_Height m * Map_Width m <= len (Tiles layer) ->
  (forall t, In t (Tiles layer) -> IsNil t = true) ->
  _renderLayer layer s = (Ok tt, s).
Proof.
  intros m Hsup Hw Hh Hlen Hnil.
  pose proof (renderLayer_cells layer s Hsup Hw Hh Hlen) as E.
  rewrite E. apply for_each_noop. intros [[x y] t] Hin.
  apply layer_cells_tile in Hin. destruct Hin as (Hin & _).
  unfold drawCell. rewrite (Hnil t Hin). reflexivity.
Qed.

End LayerEdges.

(** ** The draw calls of a rendering *)

Section DrawCalls.
Context {FL : Float64} {IM : Imaging} {FI : Files} {TI : Tiled}.

Lemma for_each_draws {A} (f : A -> M RState unit) (keep : A -> bool)
    (mk : RendererEngine -> A -> Image -> DrawCall) (l : list A) :
  (forall a s s', f a s = (Ok tt, s') ->
     engine (fst s') = engine (fst s) /\
     if keep a
     then exists img, canvas_draws s' = canvas_draws s ++ [mk (engine (fst s)) a img]
     else canvas_draws s' = canvas_draws s) ->
  forall s s', for_each f l s = (Ok tt, s') ->
    engine (fst s') = engine (fst s) /\
    exists imgs,
      length imgs = length (List.filter keep l) /\
      canvas_draws s' =
      canvas_draws s ++ zip_with (mk (engine (fst s))) (List.filter keep l) imgs.
Proof.
  intros Hstep. induction l as [|a l IH]; intros s s' Hrun.
  - injection Hrun as <-. split; [reflexivity|]. exists []. split; [reflexivity|].
    cbn. rewrite app_nil_r. reflexivity.
  - cbn [for_each] in Hrun. unfold bind in Hrun.
    destruct (f a s) as [[u|e|] s1] eqn:E; try discriminate. destruct u.
    destruct (Hstep _ _ _ E) as [He Hd].
    destruct (IH _ _ Hrun) as [He' (imgs & Hlen & Hdraws)].
    split; [congruence|]. cbn [List.filter]. rewrite He in Hdraws.
    destruct (keep a).
    + destruct Hd as [img Hd]. exists (img :: imgs). split; [cbn; congruence|].
      rewrite Hdraws, Hd, <- app_assoc. reflexivity.
    + exists imgs. split; [exact Hlen|]. rewrite Hdraws, Hd. reflexivity.
Qed.

Lemma Result_DrawImage_ok (img : Image) (geom : GeoM) (alpha : float64)
    (s s' : RState) :
  Result_DrawImage img geom alpha s = (Ok tt, s') ->
  engine (fst s') = engine (fst s) /\
  canvas_draws s' =
  canvas_draws s ++ [{| dc_img := img; dc_GeoM := geom; dc_alpha := alpha |}].
Proof.
  destruct s as [r tr]. unfold Result_DrawImage, canvas_draws. run_M.
  destruct (Result r) as [dst|]; [|discriminate].
  intros H. injection H as <-. split; reflexivity.
Qed.

Lemma drawCell_draw (layer : Layer) (cell : Z * Z * LayerTile) (s s' : RState) :
  drawCell layer cell s = (Ok tt, s') ->
  engine (fst s') = engine (fst s) /\
  if cell_drawn cell
  then exists img,
         canvas_draws s' = canvas_draws s ++ [cell_draw layer (engine (fst s)) cell img]
  else canvas_draws s' = canvas_draws s.
Proof.
  destruct cell as [[x y] t]. unfold drawCell, cell_drawn. cbn [snd].
  destruct (IsNil t); cbn [negb].
  - intros H. injection H as <-. split; reflexivity.
  - cbv [mbind M_bind bind receiver].
    destruct (getTileImage t s) as [[img|e|] s1] eqn:E; try discriminate.
    intros Hdraw. apply Result_DrawImage_ok in Hdraw. destruct Hdraw as [He Hd].
    destruct s as [r tr], s1 as [r1 tr1].
    destruct (getTileImage_outcome _ _ _ _ _ _ E) as [(_ & He1 & _ & Hres & _) _].
    cbn [fst] in *. split; [congruence|]. exists img.
    rewrite Hd. unfold canvas_draws, cell_draw. cbn [fst snd].
    rewrite Hres, He1. reflexivity.
Qed.

(** X15.  When a layer is rendered with success, the canvas has gained
    exactly one draw call for each cell with a non-empty tile, in the order
    of the cells (row by row, left to right), each with the cell transform
    [GetTilePosition x y] of the engine and the opacity of the layer as
    alpha; the draw calls made before are kept. *)
Theorem layer_draw_calls (layer : Layer) (s s' : RState) :
  let m := r_m (fst s) in
  let cells :=
    List.filter cell_drawn (layer_cells (Map_Width m) (Map_Height m) (Tiles layer)) in
  supported_order m ->
  0 <= Map_Width m -> 0 <= Map_Height m ->
  Map_Height m * Map_Width m <= len (Tiles layer) ->
  _renderLayer layer s = (Ok tt, s') ->
  exists imgs,
    length imgs = length cells /\
    canvas_draws s' =
    canvas_draws s ++ zip_with (cell_draw layer (engine (fst s))) cells imgs.
Proof.
  intros m cells Hsup Hw Hh Hlen Hrun.
  rewrite (renderLayer_cells layer s Hsup Hw Hh Hlen) in Hrun.
  eapply (for_each_draws (drawCell layer) cell_drawn (cell_draw layer)); [|exact Hrun].
  apply drawCell_draw.
Qed.

Lemma renderOneObject_one_draw (objectGroup : ObjectGroup) (o : Object)
    (s s' : RState) :
  renderOneObject objectGroup o s = (Ok tt, s') ->
  engine (fst s') = engine (fst s) /\
  if drawable o
  then exists img, canvas_draws s' = canvas_draws s ++ [object_draw objectGroup o img]
  else canvas_draws s' = canvas_draws s.
Proof.
  intros Hrun. destruct (drawable o) eqn:Hd.
  - destruct (renderOneObject_draw _ _ _ _ Hd Hrun)
      as (tile & img & r1 & tr1 & dst & _ & Hget & Hres & ->).
    destruct s as [r tr].
    destruct (getTileImage_outcome _ _ _ _ _ _ Hget) as [(_ & He1 & _ & Hres1 & _) _].
    cbn [fst set_Result engine] in *. split; [exact He1|]. exists img.
    unfold canvas_draws, object_draw. cbn [fst set_Result Result DrawImage draws].
    rewrite <- Hres1, Hres. reflexivity.
  - rewrite (renderOneObject_skip _ _ Hd) in Hrun. injection Hrun as <-.
    split; reflexivity.
Qed.

(** X16.  When an object group is rendered with success, the canvas has
    gained exactly one draw call for each visible object with a non-zero
    GID, in the order of the sort, each with the transform built for the
    object and the opacity of the group as alpha; the draw calls made before
    are kept. *)
Theorem object_group_draw_calls (objectGroup : ObjectGroup) (s s' : RState) :
  let objs :=
    List.filter drawable (SortAnySlice (Objects objectGroup) object_less) in
  _renderObjectGroup objectGroup s = (Ok tt, s') ->
  exists imgs,
    length imgs = length objs /\
    canvas_draws s' = canvas_draws s ++ zip_with (object_draw objectGroup) objs imgs.
Proof.
  intros objs Hrun. unfold _renderObjectGroup in Hrun.
  eapply (for_each_draws (renderOneObject objectGroup) drawable
            (fun _ => object_draw objectGroup)); [|exact Hrun].
  apply renderOneObject_one_draw.
Qed.

(** X17.  An object whose GID the map cannot turn into a tile stops the
    rendering of its group: the error of the lookup is returned, and the
    state is the one the objects sorted before it have left; the object
    itself and the objects after it leave no trace. *)
Theorem object_group_stops_at_unknown_gid (objectGroup : ObjectGroup)
    (before after : list Object) (o : Object) (e : error) (s s1 : RState) :
  SortAnySlice (Objects objectGroup) object_less = before ++ o :: after ->
  for_each (renderOneObject objectGroup) before s = (Ok tt, s1) ->
  drawable o = true ->
  TileGIDToTile (r_m (fst s)) (GID o) = Err e ->
  _renderObjectGroup objectGroup s = (Err e, s1).
Proof.
  intros Hsort Hbefore Hd Hgid. unfold _renderObjectGroup. rewrite Hsort.
  rewrite for_each_app, Hbefore. cbn [for_each]. unfold bind.
  assert (Hm : r_m (fst s1) = r_m (fst s)).
  { eapply (keeps_for_each only_draws_and_cache_grow (renderOneObject objectGroup));
      [exact grow_refl|exact grow_trans|exact (keeps_renderOneObject objectGroup)
      |exact Hbefore]. }
  assert (E : renderOneObject objectGroup o s1 = (Err e, s1)).
  { unfold drawable in Hd. apply andb_true_iff in Hd. destruct Hd as [Hv Hg].
    apply negb_true_iff in Hg. unfold renderOneObject. rewrite Hv, Hg. cbn [negb].
    destruct s1 as [r1 tr1]. cbn [fst] in Hm. run_M. rewrite Hm, Hgid. reflexivity. }
  rewrite E. reflexivity.
Qed.

End DrawCalls.

(** ** Clearing the canvas *)

Section Clearing.
Context {FL : Float64} {IM : Imaging} {FI : Files} {TI : Tiled}.


End Clearing.

(** ** The tileset cache *)

Section TilesetCacheProperties.
Context {FL : Float64} {IM : Imaging} {FI : Files} {TI : Tiled}.

Lemma GetTileImage_cached (tile : LayerTile) (cached : gmap Z Image)
    (t : TilesetCache) (tr : list io_event) :
  t_cache t !! Tileset_Name (LT_Tileset tile) = Some cached ->
  GetTileImage tile (t, tr) = (Ok (cached !! ID tile), (t, tr)).
Proof. intros H. unfold GetTileImage. run_M. rewrite H. reflexivity. Qed.

Lemma cacheTileset_loads (ts : Tileset) (image : ImageRef) (decoded : Image)
    (t : TilesetCache) (tr : list io_event) :
  let p := open_path (t_fs t) (tileset_file ts image) in
  Tileset_Image ts = Some image ->
  load_succeeds (t_fs t) (tileset_file ts image) decoded ->
  cacheTileset ts (t, tr) =
  (Ok tt,
   (set_t_cache (<[Tileset_Name ts := slice_tileset ts (NewImageFromImage decoded)]>
                   (t_cache t)) t,
    tr ++ [EvOpen p; EvDecode p; EvClose p])).
Proof.
  intros p Himg (sf & Hopen & Hdec). rewrite (cacheTileset_run _ _ _ _ Himg).
  cbv zeta. rewrite Hopen, Hdec. reflexivity.
Qed.

(** X19.  The first request for a tile of a tileset that the cache does
    not hold loads the shared image once and stores a slice for every index
    below the tile count under the name of the tileset; the request returns
    the slice at the rectangle of the tile.  Every later request for a tile
    of the tileset returns its slice from the cache and leaves the state,
    trace included, unchanged.  The entries of other names are kept. *)
Theorem tileset_cache_loads_once (tile : LayerTile) (image : ImageRef)
    (decoded : Image) (t : TilesetCache) (tr : list io_event) :
  let ts := LT_Tileset tile in
  let p := open_path (t_fs t) (tileset_file ts image) in
  let slices := slice_tileset ts (NewImageFromImage decoded) in
  let t' := set_t_cache (<[Tileset_Name ts := slices]> (t_cache t)) t in
  Tileset_Image ts = Some image ->
  t_cache t !! Tileset_Name ts = None ->
  load_succeeds (t_fs t) (tileset_file ts image) decoded ->
  GetTileImage tile (t, tr) =
    (Ok (slices !! ID tile), (t', tr ++ [EvOpen p; EvDecode p; EvClose p])) /\
  (forall i, slices !! i =
     if decide (0 <= i < uint32 (TileCount ts))
     then Some (SubImage (NewImageFromImage decoded) (GetTileRect ts i))
     else None) /\
  (forall (tile' : LayerTile) (tr' : list io_event),
     LT_Tileset tile' = ts ->
     GetTileImage tile' (t', tr') = (Ok (slices !! ID tile'), (t', tr'))) /\
  (forall name, name <> Tileset_Name ts -> t_cache t' !! name = t_cache t !! name).
Proof.
  intros ts p slices t' Himg Hmiss Hload.
  split; [|split; [|split]].
  - rewrite (GetTileImage_miss _ _ _ Hmiss). fold ts.
    rewrite (cacheTileset_loads ts image decoded t tr Himg Hload).
    cbn [t_cache set_t_cache]. rewrite lookup_insert_eq. reflexivity.
  - intros i. apply lookup_slice_tileset.
  - intros tile' tr' Hts. apply GetTileImage_cached. rewrite Hts.
    cbn [t_cache set_t_cache]. apply lookup_insert_eq.
  - intros name Hne. cbn [t_cache set_t_cache]. apply lookup_insert_ne. congruence.
Qed.

(** X20.  The tileset cache knows a tileset by its name alone.  Once a
    tileset has been cached, a tile of any other tileset of the same name is
    answered from the slices of the first one, at the local index of the
    tile: the image of the second tileset is never opened and its tile count
    and rectangles are never used. *)
Theorem tileset_cache_keyed_by_name (first other : Tileset) (image : ImageRef)
    (decoded : Image) (t t1 : TilesetCache) (tr tr1 tr2 : list io_event)
    (tile : LayerTile) :
  Tileset_Image first = Some image ->
  load_succeeds (t_fs t) (tileset_file first image) decoded ->
  cacheTileset first (t, tr) = (Ok tt, (t1, tr1)) ->
  LT_Tileset tile = other ->
  Tileset_Name other = Tileset_Name first ->
  GetTileImage tile (t1, tr2) =
  (Ok (if decide (0 <= ID tile < uint32 (TileCount first))
       then Some (SubImage (NewImageFromImage decoded) (GetTileRect first (ID tile)))
       else None),
   (t1, tr2)).
Proof.
  intros Himg Hload Hrun Htile Hname.
  rewrite (cacheTileset_loads first image decoded t tr Himg Hload) in Hrun.
  injection Hrun as <- _.
  rewrite (GetTileImage_cached tile (slice_tileset first (NewImageFromImage decoded))).
  - rewrite lookup_slice_tileset. reflexivity.
  - rewrite Htile, Hname. cbn [t_cache set_t_cache]. apply lookup_insert_eq.
Qed.

(** X21.  The tileset cache serves shared-image tilesets only: asked for a
    tile of a tileset without a shared image that it does not hold, it
    dereferences the missing image and panics, before any file is opened. *)
Theorem tileset_cache_needs_shared_image (tile : LayerTile) (t : TilesetCache)
    (tr : list io_event) :
  Tileset_Image (LT_Tileset tile) = None ->
  t_cache t !! Tileset_Name (LT_Tileset tile) = None ->
  cacheTileset (LT_Tileset tile) (t, tr) = (Panic, (t, tr)) /\
  GetTileImage tile (t, tr) = (Panic, (t, tr)).
Proof.
  intros Himg Hmiss.
  assert (E : cacheTileset (LT_Tileset tile) (t, tr) = (Panic, (t, tr))).
  { unfold cacheTileset. rewrite Himg. reflexivity. }
  split; [exact E|]. rewrite (GetTileImage_miss _ _ _ Hmiss), E. reflexivity.
Qed.

End TilesetCacheProperties.

(** ** The further properties at concrete inputs *)

Module DemoExtras.
Import Demo DemoMore.

Example RenderLayer_ground : RenderLayer 0 start = (Ok tt, after_layer).
Proof. reflexivity. Qed.

Example renderObjectGroup_objects :
  _renderObjectGroup objects start = (Ok tt, after_objects).
Proof. reflexivity. Qed.

Ltac sheet_loads := exists "tiles.png"%string; split; reflexivity.

Lemma rendering_only_adds_witness : only_draws_and_cache_grow start after_layer.
Proof.
  apply (rendering_only_adds start after_layer (Ok tt)).
  left. exists 0. reflexivity.
Defined.

Lemma getTileImage_leaves_canvas_witness : only_cache_grows start loaded.
Proof.
  apply (getTileImage_leaves_canvas (tile_of tiles 2) start loaded
           (Ok (at_origin [[9; 10]; [13; 14]]))).
  reflexivity.
Defined.

Lemma getTileImage_opens_one_file_and_closes_it_witness :
  snd loaded = [] \/
  exists f, let p := open_path None f in
    ((exists sf, open_file None f = Ok sf) /\
     snd loaded = [] ++ [EvOpen p; EvDecode p; EvClose p]) \/
    ((forall sf, open_file None f <> Ok sf) /\ snd loaded = [] ++ [EvOpen p]).
Proof.
  apply (getTileImage_opens_one_file_and_closes_it (tile_of tiles 2)
           renderer (fst loaded) [] (snd loaded) (Ok (at_origin [[9; 10]; [13; 14]]))).
  reflexivity.
Defined.

Lemma shared_tileset_served_from_cache_witness :
  getTileImage (tile_of tiles 2) loaded = (Ok (at_origin [[9; 10]; [13; 14]]), loaded).
Proof.
  assert (E : getTileImage (tile_of tiles 2) start =
              (Ok (at_origin [[9; 10]; [13; 14]]), loaded)) by reflexivity.
  destruct (shared_tileset_served_from_cache (tile_of tiles 2) {| Source := "tiles.png" |}
              start loaded (at_origin [[9; 10]; [13; 14]]) eq_refl eq_refl E)
    as [H _].
  exact H.
Defined.

Lemma shared_tileset_index_beyond_count_witness :
  getTileImage (tile_of tiles 4) start = (Err (ErrTileImageNotFound 4), loaded) /\
  tileCache (fst loaded) !! 5 = None.
Proof.
  destruct (shared_tileset_index_beyond_count (IM:=Grids) (tile_of tiles 4) {| Source := "tiles.png" |}
              sheet renderer [] eq_refl eq_refl ltac:(sheet_loads)) as (H1 & _ & H2 & _).
  - split; [discriminate|reflexivity].
  - vm_compute. discriminate.
  - split; [exact H1|exact H2].
Defined.

Lemma per_tile_image_cached_alone_witness :
  getTileImage (TI:=WithSingles) (tile_of singles 0) start = (Ok sheet, after_single) /\
  size (tileCache (fst after_single)) = 1%nat.
Proof.
  assert (E : getTileImage (TI:=WithSingles) (tile_of singles 0) start =
              (Ok sheet, after_single)) by reflexivity.
  split; [exact E|].
  destruct (per_tile_image_cached_alone (IM:=Grids) (TI:=WithSingles) (tile_of singles 0)
              start after_single sheet eq_refl eq_refl E)
    as (tt0 & image & decoded & _ & _ & _ & _ & _ & _ & Hsize & _).
  exact Hsize.
Defined.

Lemma per_tile_lookup_error_witness :
  getTileImage (TI:=WithSingles) (tile_of singles 1) start =
  (Err (ErrExternal "tiled: tile not found"), start).
Proof.
  apply (per_tile_lookup_error (TI:=WithSingles) (tile_of singles 1)); reflexivity.
Defined.

Lemma negative_index_panics_witness :
  RenderLayer (-1) start = (Panic, start) /\
  RenderGroupObjectGroup 0 (-1) start = (Panic, start).
Proof.
  destruct (negative_index_panics start (-1)) as (H1 & _ & _ & _ & H2); [lia|].
  split; [exact H1|]. apply (H2 0 group); [lia|reflexivity].
Defined.

Lemma unsupported_render_order_witness :
  RenderVisibleLayers left_up = (Err ErrUnsupportedRenderOrder, left_up).
Proof.
  destruct (unsupported_render_order left_up) as (_ & _ & H & _).
  - intros [H|H]; discriminate H.
  - exact H.
Defined.

Lemma renderLayer_cell_by_cell_witness :
  _renderLayer ground start =
  for_each (drawCell ground)
    [(0, 0, tile_of tiles 0); (1, 0, tile_of tiles 1);
     (0, 1, tile_of tiles 2); (1, 1, tile_of tiles 3)] start.
Proof.
  apply (renderLayer_cell_by_cell ground start).
  - right. reflexivity.
  - vm_compute. discriminate.
  - vm_compute. discriminate.
  - vm_compute. discriminate.
Defined.

Lemma short_layer_never_rendered_witness :
  _renderLayer short_layer start = (Panic, start) /\ Panic <> Ok tt.
Proof.
  assert (E : _renderLayer short_layer start = (Panic, start)) by reflexivity.
  split; [exact E|].
  apply (short_layer_never_rendered short_layer start start Panic);
    [reflexivity|reflexivity|reflexivity|exact E].
Defined.

Lemma empty_layer_draws_nothing_witness :
  _renderLayer empty_layer start = (Ok tt, start).
Proof.
  apply (empty_layer_draws_nothing empty_layer start).
  - right. reflexivity.
  - vm_compute. discriminate.
  - vm_compute. discriminate.
  - vm_compute. discriminate.
  - intros t [<-|[<-|[<-|[<-|[]]]]]; reflexivity.
Defined.

Lemma layer_draw_calls_witness :
  exists imgs,
    length imgs = 4%nat /\
    canvas_draws after_layer =
    zip_with (cell_draw ground (engine renderer))
      [(0, 0, tile_of tiles 0); (1, 0, tile_of tiles 1);
       (0, 1, tile_of tiles 2); (1, 1, tile_of tiles 3)] imgs.
Proof.
  apply (layer_draw_calls ground start after_layer).
  - right. reflexivity.
  - vm_compute. discriminate.
  - vm_compute. discriminate.
  - vm_compute. discriminate.
  - reflexivity.
Defined.

Lemma object_group_draw_calls_witness :
  exists imgs,
    length imgs = 3%nat /\
    canvas_draws after_objects =
    zip_with (object_draw objects)
      [object_at 2 3 1; object_at 3 5 2; object_at 1 5 10] imgs.
Proof.
  apply (object_group_draw_calls objects start after_objects). reflexivity.
Defined.

Lemma object_group_stops_at_unknown_gid_witness :
  _renderObjectGroup (TI:=WithSingles) with_stranger start =
  (Err (ErrExternal "tiled: invalid tile GID"), before_stranger).
Proof.
  apply (object_group_stops_at_unknown_gid (TI:=WithSingles) with_stranger
           [object_at 2 3 1] [object_at 1 5 10] (object_at 99 4 0)); reflexivity.
Defined.

Lemma tileset_cache_loads_once_witness :
  GetTileImage (tile_of tiles 2) (NewTilesetCache None, []) =
    (Ok (Some {| origin := Pt 0 2; rows := [[9; 10]; [13; 14]] |}), cached_tiles) /\
  GetTileImage (tile_of tiles 3) cached_tiles =
    (Ok (Some {| origin := Pt 2 2; rows := [[11; 12]; [15; 16]] |}), cached_tiles).
Proof.
  destruct (tileset_cache_loads_once (IM:=Grids) (tile_of tiles 2) {| Source := "tiles.png" |}
              sheet (NewTilesetCache None) [] eq_refl eq_refl ltac:(sheet_loads))
    as (H1 & _ & H2 & _).
  split; [exact H1|]. exact (H2 (tile_of tiles 3) (snd cached_tiles) eq_refl).
Defined.

Lemma tileset_cache_keyed_by_name_witness :
  GetTileImage (tile_of namesake 3) cached_tiles =
  (Ok (Some {| origin := Pt 2 2; rows := [[11; 12]; [15; 16]] |}), cached_tiles).
Proof.
  apply (tileset_cache_keyed_by_name (IM:=Grids) tiles namesake {| Source := "tiles.png" |}
           sheet (NewTilesetCache None) (fst cached_tiles) [] (snd cached_tiles)
           (snd cached_tiles) (tile_of namesake 3) eq_refl ltac:(sheet_loads));
    reflexivity.
Defined.

Lemma tileset_cache_needs_shared_image_witness :
  GetTileImage (tile_of singles 0) (NewTilesetCache None, []) =
  (Panic, (NewTilesetCache None, [])).
Proof.
  apply (tileset_cache_needs_shared_image (tile_of singles 0)); reflexivity.
Defined.

End DemoExtras.
